(** * spynode: the mempool conflict tracker and the untrusted-peer node

    A shallow embedding of [pkg/spynode/handlers/data/mempool.go] and of the
    [Stop], [BroadcastTx] and [check] methods of
    [pkg/spynode/untrusted_node.go], with the properties the specification
    states about them.

    Go methods become functions from the receiver's state to an [outcome]:
    a call either returns a value and a new state, parks its goroutine
    for good (a [Lock] on a mutex that is held, a send on a full channel), or
    panics (a send on, or a second close of, a closed channel). *)

From stdpp Require Import gmap list strings.
From Stdlib Require Import ZArith Lia.
From Stdlib.Strings Require Byte.

Open Scope Z_scope.

(** ** Outcomes of a call *)

Inductive outcome (St A : Type) : Type :=
| Returns (a : A) (s : St)   (* the call returns [a], leaving state [s] *)
| Blocks (s : St)            (* the goroutine is parked in state [s] *)
| Panics (s : St).           (* a run-time panic is raised in state [s] *)

Arguments Returns {St A} a s.
Arguments Blocks {St A} s.
Arguments Panics {St A} s.

(** The state a call leaves behind, however it ends. *)
Definition final {St A} (o : outcome St A) : St :=
  match o with
  | Returns _ s => s
  | Blocks s => s
  | Panics s => s
  end.

Definition returned {St A} (o : outcome St A) : option A :=
  match o with
  | Returns a _ => Some a
  | _ => None
  end.

(** Calls are state transformers with an outcome. *)
Definition M (St A : Type) : Type := St → outcome St A.

Definition ret {St A} (a : A) : M St A := fun s => Returns a s.

Definition bind {St A B} (c : M St A) (k : A → M St B) : M St B :=
  fun s =>
    match c s with
    | Returns a s' => k a s'
    | Blocks s' => Blocks s'
    | Panics s' => Panics s'
    end.

Notation "'do' x <- c ; k" := (bind c (fun x => k))
  (at level 10, x name, c at level 100, k at level 200, only parsing).

(** [c] keeps [P]: from a state where [P] holds, [c] leaves one where [P]
    holds, however it ends. *)
Definition keeps {St A} (P : St → Prop) (c : M St A) : Prop :=
  ∀ s, P s → P (final (c s)).

(** chainhash.Hash is a 32-byte array; it is read here as the number it
    spells. *)
Abbreviation Hash := N.

(** time.Time and time.Duration, both in nanoseconds. *)
Abbreviation Time := Z.
Abbreviation Duration := Z.

Definition Second : Duration := 1000000000.
Definition maxDuration : Duration := 2 ^ 63 - 1.
Definition minDuration : Duration := - 2 ^ 63.

(** [t.Sub(u)]: the difference, saturated to what a Duration holds. *)
Definition Sub (t u : Time) : Duration :=
  if maxDuration <? t - u then maxDuration
  else if t - u <? minDuration then minDuration
  else t - u.

(** [d.Seconds() > 3].  [Seconds] is [float64(d / Second) +
    float64(d % Second) / 1e9].  Three seconds give the float 3 exactly, any
    shorter duration gives a float below 3, and one nanosecond more gives a
    float above 3 (floats near 3 are 2^-51 apart), as does any longer
    duration: the test is the comparison of the nanoseconds with three
    seconds. *)
Definition older_than_3s (d : Duration) : bool := 3 * Second <? d.

(** Modelled from the spec: the wire package is not part of the sources; an
    outpoint is the pair (spent transaction hash, output index), a
    transaction input refers to one outpoint, and a transaction carries its
    inputs. *)
Record OutPoint := { OutPoint_Hash : Hash; OutPoint_Index : N }.
Record TxIn_t := { PreviousOutPoint : OutPoint }.
Record MsgTx := { Version : Z; TxIn : list TxIn_t; LockTime : N }.

#[global] Instance OutPoint_eq_dec : EqDecision OutPoint.
Proof. solve_decision. Defined.
#[global] Instance TxIn_t_eq_dec : EqDecision TxIn_t.
Proof. solve_decision. Defined.
#[global] Instance MsgTx_eq_dec : EqDecision MsgTx.
Proof. solve_decision. Defined.

(** ** package data: the mempool *)

Module Data.

Record memPoolTx := { time : Time; outPoints : list OutPoint }.

Record MemPool := {
  txs : gmap Hash memPoolTx;          (* entries by transaction hash *)
  inputs : gmap Hash (list Hash);     (* spenders by hash of outpoint *)
  requests : gmap Hash Time;          (* transactions that have been requested *)
  mutex : bool                     (* true while the mutex is held *)
}.

Definition set_txs (f : gmap Hash memPoolTx → gmap Hash memPoolTx) (m : MemPool) :=
  {| txs := f (txs m); inputs := inputs m; requests := requests m;
     mutex := mutex m |}.
Definition set_inputs (f : gmap Hash (list Hash) → gmap Hash (list Hash))
    (m : MemPool) :=
  {| txs := txs m; inputs := f (inputs m); requests := requests m;
     mutex := mutex m |}.
Definition set_requests (f : gmap Hash Time → gmap Hash Time) (m : MemPool) :=
  {| txs := txs m; inputs := inputs m; requests := f (requests m);
     mutex := mutex m |}.
Definition set_mutex (b : bool) (m : MemPool) :=
  {| txs := txs m; inputs := inputs m; requests := requests m; mutex := b |}.

Definition NewMemPool : MemPool :=
  {| txs := ∅; inputs := ∅; requests := ∅; mutex := false |}.

(** sync.Mutex is not reentrant: [Lock] on a held mutex parks the caller. *)
Definition Lock : M MemPool unit :=
  fun m => if mutex m then Blocks m else Returns tt (set_mutex true m).

Definition Unlock (m : MemPool) : MemPool := set_mutex false m.

(** [mutex.Lock(); defer mutex.Unlock(); body]. *)
Definition locked {A} (body : M MemPool A) : M MemPool A :=
  do _ <- Lock;
  fun m1 =>
    match body m1 with
    | Returns a m2 => Returns a (Unlock m2)
    | Blocks m2 => Blocks m2
    | Panics m2 => Panics (Unlock m2)
    end.

Definition AddRequest (now : Time) (txid : Hash) : M MemPool (bool * bool) :=
  locked (fun m =>
    match txs m !! txid with
    | Some _ => Returns (true, false) m
    | None =>
        match requests m !! txid with
        | Some requestTime =>
            if older_than_3s (Sub now requestTime)
            then Returns (false, true) (set_requests <[txid := now]> m)
            else Returns (false, false) m
        | None => Returns (false, true) (set_requests <[txid := now]> m)
        end
    end).

Definition newMemPoolTx (now : Time) (tx : MsgTx) : memPoolTx :=
  {| time := now;
     outPoints := foldl (fun acc input => acc ++ [PreviousOutPoint input])
                        [] (TxIn tx) |}.

(** The inner loop of [appendIfNotContained]. *)
Definition contained (lst : list Hash) (addHash : Hash) : bool :=
  existsb (N.eqb addHash) lst.

(** [appendIfNotContained] has no result: it grows its own copy of the slice
    header [lst].  The function below computes that local copy as it stands
    when the Go function ends; the caller's slice is not touched. *)
Definition appendIfNotContained (lst add : list Hash) : list Hash :=
  foldl (fun lst addHash =>
           if contained lst addHash then lst else lst ++ [addHash])
        lst add.

Section WithHashes.

(** [tx.TxHash()] and [outpoint.OutpointHash()], of the wire package. *)
Variable TxHash : MsgTx → Hash.
Variable OutpointHash : OutPoint → Hash.

(** One turn of the loop of [AddTransaction], which reads and writes
    [memPool.inputs] only.  When the outpoint is indexed already, both
    [appendIfNotContained(result, list)] and [list = append(list, &hash)]
    work on local slice headers: neither [result] nor the slice kept in
    [memPool.inputs] changes. *)
Definition add_outpoint (hash : Hash) (result : list Hash)
    (inputs : gmap Hash (list Hash)) (outpoint : OutPoint) : gmap Hash (list Hash) :=
  let outpointHash := OutpointHash outpoint in
  match inputs !! outpointHash with
  | Some lst =>
      let _ := appendIfNotContained result lst in
      let _ := lst ++ [hash] in
      inputs
  | None => <[outpointHash := [hash]]> inputs
  end.

Definition AddTransaction (now : Time) (tx : MsgTx)
  : M MemPool (list Hash * bool) :=
  locked (fun m =>
    let result : list Hash := [] in
    let hash := TxHash tx in
    match txs m !! hash with
    | Some _ => Returns (result, false) m
    | None =>
        let newTx := newMemPoolTx now tx in
        let m1 := set_txs <[hash := newTx]> m in
        Returns (result, true)
          (set_inputs
             (fun inputs =>
                foldl (add_outpoint hash result) inputs (outPoints newTx))
             m1)
    end).

(** [append(otherHashes[:i], otherHashes[i+1:]...)] moves the tail one slot
    down inside the backing array, which the slice kept in the map shares and
    still reads at its old length: the last slot keeps its old content. *)
Definition shift_out (i : nat) (l : list Hash) : list Hash :=
  take i l ++ drop (S i) l ++ option_list (last l).

(** One turn of the loop of [RemoveTransaction], which reads and writes
    [memPool.inputs] only.  The inner search compares each stored hash with
    [outpointHash], as the source does. *)
Definition remove_outpoint (inputs : gmap Hash (list Hash)) (outpoint : OutPoint)
  : gmap Hash (list Hash) :=
  let outpointHash := OutpointHash outpoint in
  match inputs !! outpointHash with
  | Some otherHashes =>
      if (1 <? length otherHashes)%nat then
        match list_find (fun otherHash => otherHash = outpointHash)
                        otherHashes with
        | Some (i, _) => <[outpointHash := shift_out i otherHashes]> inputs
        | None => inputs
        end
      else delete outpointHash inputs
  | None => inputs
  end.

Definition RemoveTransaction (hash : Hash) : M MemPool bool :=
  locked (fun m =>
    match txs m !! hash with
    | Some tx =>
        let m1 :=
          set_inputs (fun inputs => foldl remove_outpoint inputs (outPoints tx))
                     m in
        Returns true (set_txs (delete hash) m1)
    | None => Returns false m
    end).

Definition TransactionExists (hash : Hash) : M MemPool bool :=
  locked (fun m => Returns (bool_decide (is_Some (txs m !! hash))) m).

(** The inner loop of [Conflicting], over the slice found under one
    outpoint: [RemoveTransaction] is called with the mutex of [Conflicting]
    still held, so the turns after the first are never reached (see
    [conflicting_list_held] below). *)
Fixpoint conflicting_list (lst : list Hash) (result : list Hash)
  : M MemPool (list Hash) :=
  match lst with
  | [] => ret result
  | hash :: rest =>
      let result := result ++ [hash] in
      do _ <- RemoveTransaction hash;
      conflicting_list rest result
  end.

Fixpoint conflicting_inputs (ins : list TxIn_t) (result : list Hash)
  : M MemPool (list Hash) :=
  match ins with
  | [] => ret result
  | input :: rest =>
      fun m =>
        match inputs m !! OutpointHash (PreviousOutPoint input) with
        | Some lst =>
            (do result <- conflicting_list lst result;
             conflicting_inputs rest result) m
        | None => conflicting_inputs rest result m
        end
  end.

Definition Conflicting (tx : MsgTx) : M MemPool (list Hash) :=
  locked (conflicting_inputs (TxIn tx) []).

(** *** Sequences of calls *)

Inductive call :=
| CallAddRequest (now : Time) (txid : Hash)
| CallAddTransaction (now : Time) (tx : MsgTx)
| CallRemoveTransaction (hash : Hash)
| CallTransactionExists (hash : Hash)
| CallConflicting (tx : MsgTx).

Definition exec (c : call) : M MemPool unit :=
  match c with
  | CallAddRequest now txid => do _ <- AddRequest now txid; ret tt
  | CallAddTransaction now tx => do _ <- AddTransaction now tx; ret tt
  | CallRemoveTransaction hash => do _ <- RemoveTransaction hash; ret tt
  | CallTransactionExists hash => do _ <- TransactionExists hash; ret tt
  | CallConflicting tx => do _ <- Conflicting tx; ret tt
  end.

Fixpoint execs (cs : list call) : M MemPool unit :=
  match cs with
  | [] => ret tt
  | c :: cs => do _ <- exec c; execs cs
  end.

(** The states a mempool can be in between two calls. *)
Definition reachable (m : MemPool) : Prop :=
  ∃ cs, execs cs NewMemPool = Returns tt m.

(** The outpoint hashes an entry spends. *)
Definition spent (e : memPoolTx) : list Hash := OutpointHash <$> outPoints e.

(** The invariant of the data model, index to entries: every hash listed
    under an outpoint is a tracked entry that spends that outpoint. *)
Definition index_sound (m : MemPool) : Prop :=
  ∀ o lst h, inputs m !! o = Some lst → h ∈ lst →
    ∃ e, txs m !! h = Some e ∧ o ∈ spent e.

(** Entries to index: every outpoint of a tracked entry lists that entry. *)
Definition index_complete (m : MemPool) : Prop :=
  ∀ h e o, txs m !! h = Some e → o ∈ spent e →
    ∃ lst, inputs m !! o = Some lst ∧ h ∈ lst.

(** What holds of the mempool between two calls: the mutex is free, and
    every slice of the index holds exactly one hash, that of a tracked entry
    which spends the outpoint. *)
Definition between_calls (m : MemPool) : Prop :=
  mutex m = false ∧
  ∀ o lst, inputs m !! o = Some lst →
    ∃ h e, lst = [h] ∧ txs m !! h = Some e ∧ o ∈ spent e.

End WithHashes.

End Data.

(** ** package spynode: the untrusted node *)

Module Spynode.

Definition Error := string.

(** What travels on the outgoing channel.  The header request is the message
    [buildHeaderRequest] returns, [GetAddr] is [wire.NewMsgGetAddr()],
    [MemPoolRequest] is [wire.NewMsgMemPool()], [Tx] a broadcast transaction;
    [Other] stands for the messages of the transaction tracker, whose content
    this package never looks at. *)
Inductive Message :=
| HeaderRequest (req : N)
| GetAddr
| MemPoolRequest
| Tx (tx : MsgTx)
| Other (payload : N).

(** [chan wire.Message] with its buffer of 100. *)
Record Chan := { buffer : list Message; closed : bool }.

Definition capacity : nat := 100.

(** Modelled from the spec: data.UntrustedState is not part of the sources;
    it is the ConnectionState record of the data model, created with every
    flag down and no timestamp. *)
Record UntrustedState := {
  ConnectedTime : option Time;
  VersionReceived : bool;
  ProtocolVersion : N;
  HandshakeComplete : bool;
  HeadersRequested : option Time;
  Verified : bool;
  ScoreUpdated : bool;
  AddressesRequested : bool;
  MemPoolRequested : bool
}.

Definition NewUntrustedState : UntrustedState :=
  {| ConnectedTime := None; VersionReceived := false; ProtocolVersion := 0;
     HandshakeComplete := false; HeadersRequested := None; Verified := false;
     ScoreUpdated := false; AddressesRequested := false;
     MemPoolRequested := false |}.

(** What the node has done to its collaborators so far, oldest first. *)
Inductive effect :=
| Sent (msg : Message)                     (* node.outgoing <- msg *)
| ChanClosed                               (* close(node.outgoing) *)
| ConnClosed                               (* node.conn.Close() *)
| Scored (address : string) (delta : Z).   (* node.peers.UpdateScore *)

(** The node.  Of its collaborators only what the three methods below touch
    is kept: the peer repository through the score updates recorded in
    [history], the connection through its handle, the block repository and
    the transaction tracker through what they hand to [check]
    (see [CheckEnv]). *)
Record UntrustedNode := {
  address : string;
  state : UntrustedState;
  conn : option N;            (* nil, or the handle of the open connection *)
  outgoing : Chan;
  outgoingOpen : bool;
  stopping : bool;
  Active : bool;
  mutex : bool;               (* true while the mutex is held *)
  history : list effect
}.

Definition NewUntrustedNode (address : string) : UntrustedNode :=
  {| address := address; state := NewUntrustedState; conn := None;
     outgoing := {| buffer := []; closed := false |}; outgoingOpen := true;
     stopping := false; Active := true; mutex := false; history := [] |}.

Definition set_state (f : UntrustedState → UntrustedState) (n : UntrustedNode) :=
  {| address := address n; state := f (state n); conn := conn n;
     outgoing := outgoing n; outgoingOpen := outgoingOpen n;
     stopping := stopping n; Active := Active n; mutex := mutex n;
     history := history n |}.
Definition set_conn (c : option N) (n : UntrustedNode) :=
  {| address := address n; state := state n; conn := c;
     outgoing := outgoing n; outgoingOpen := outgoingOpen n;
     stopping := stopping n; Active := Active n; mutex := mutex n;
     history := history n |}.
Definition set_outgoing (c : Chan) (n : UntrustedNode) :=
  {| address := address n; state := state n; conn := conn n;
     outgoing := c; outgoingOpen := outgoingOpen n;
     stopping := stopping n; Active := Active n; mutex := mutex n;
     history := history n |}.
Definition set_outgoingOpen (b : bool) (n : UntrustedNode) :=
  {| address := address n; state := state n; conn := conn n;
     outgoing := outgoing n; outgoingOpen := b;
     stopping := stopping n; Active := Active n; mutex := mutex n;
     history := history n |}.
Definition set_stopping (b : bool) (n : UntrustedNode) :=
  {| address := address n; state := state n; conn := conn n;
     outgoing := outgoing n; outgoingOpen := outgoingOpen n;
     stopping := b; Active := Active n; mutex := mutex n;
     history := history n |}.
Definition set_mutex (b : bool) (n : UntrustedNode) :=
  {| address := address n; state := state n; conn := conn n;
     outgoing := outgoing n; outgoingOpen := outgoingOpen n;
     stopping := stopping n; Active := Active n; mutex := b;
     history := history n |}.
Definition record (e : effect) (n : UntrustedNode) :=
  {| address := address n; state := state n; conn := conn n;
     outgoing := outgoing n; outgoingOpen := outgoingOpen n;
     stopping := stopping n; Active := Active n; mutex := mutex n;
     history := history n ++ [e] |}.

(** [node.outgoing <- msg]: panics on a closed channel, parks the sender
    while the buffer is full. *)
Definition send (msg : Message) : M UntrustedNode unit :=
  fun n =>
    if closed (outgoing n) then Panics n
    else if (length (buffer (outgoing n)) <? capacity)%nat then
      Returns tt
        (record (Sent msg)
           (set_outgoing {| buffer := buffer (outgoing n) ++ [msg];
                            closed := false |} n))
    else Blocks n.

(** [close(node.outgoing)]: panics when the channel is closed already. *)
Definition close : M UntrustedNode unit :=
  fun n =>
    if closed (outgoing n) then Panics n
    else Returns tt
           (record ChanClosed
              (set_outgoing {| buffer := buffer (outgoing n);
                               closed := true |} n)).

Definition Lock : M UntrustedNode unit :=
  fun n => if mutex n then Blocks n else Returns tt (set_mutex true n).

Definition Unlock (n : UntrustedNode) : UntrustedNode := set_mutex false n.

(** [mutex.Lock(); defer mutex.Unlock(); body]. *)
Definition locked {A} (body : M UntrustedNode A) : M UntrustedNode A :=
  do _ <- Lock;
  fun n1 =>
    match body n1 with
    | Returns a n2 => Returns a (Unlock n2)
    | Blocks n2 => Blocks n2
    | Panics n2 => Panics (Unlock n2)
    end.

Definition disconnect : M UntrustedNode (option Error) :=
  fun n =>
    match conn n with
    | None => Returns None n
    | Some _ => Returns None (set_conn None (record ConnClosed n))
    end.

Definition Stop : M UntrustedNode (option Error) :=
  locked (
    do _ <- (fun n => Returns tt (set_stopping true n));
    do _ <- (fun n =>
               if outgoingOpen n
               then (do _ <- close;
                     fun n => Returns tt (set_outgoingOpen false n)) n
               else Returns tt n);
    disconnect).

Definition BroadcastTx (tx : MsgTx) : M UntrustedNode (option Error) :=
  locked (fun n =>
    if negb (outgoingOpen n) then Returns (Some "Node inactive"%string) n
    else (do _ <- send (Tx tx); ret None) n).

(** What one call of [check] gets from outside the node: the clock, the
    result of [buildHeaderRequest] and the result of [txTracker.Check], each
    used only if [check] gets as far as asking for it. *)
Record CheckEnv := {
  now : Time;
  headerRequest : Error + N;
  trackerResponses : Error + list N
}.

Definition mark_handshake (t : Time) (s : UntrustedState) : UntrustedState :=
  {| ConnectedTime := ConnectedTime s; VersionReceived := VersionReceived s;
     ProtocolVersion := ProtocolVersion s; HandshakeComplete := true;
     HeadersRequested := Some t; Verified := Verified s;
     ScoreUpdated := ScoreUpdated s;
     AddressesRequested := AddressesRequested s;
     MemPoolRequested := MemPoolRequested s |}.
Definition mark_ScoreUpdated (s : UntrustedState) : UntrustedState :=
  {| ConnectedTime := ConnectedTime s; VersionReceived := VersionReceived s;
     ProtocolVersion := ProtocolVersion s;
     HandshakeComplete := HandshakeComplete s;
     HeadersRequested := HeadersRequested s; Verified := Verified s;
     ScoreUpdated := true; AddressesRequested := AddressesRequested s;
     MemPoolRequested := MemPoolRequested s |}.
Definition mark_AddressesRequested (s : UntrustedState) : UntrustedState :=
  {| ConnectedTime := ConnectedTime s; VersionReceived := VersionReceived s;
     ProtocolVersion := ProtocolVersion s;
     HandshakeComplete := HandshakeComplete s;
     HeadersRequested := HeadersRequested s; Verified := Verified s;
     ScoreUpdated := ScoreUpdated s; AddressesRequested := true;
     MemPoolRequested := MemPoolRequested s |}.
Definition mark_MemPoolRequested (s : UntrustedState) : UntrustedState :=
  {| ConnectedTime := ConnectedTime s; VersionReceived := VersionReceived s;
     ProtocolVersion := ProtocolVersion s;
     HandshakeComplete := HandshakeComplete s;
     HeadersRequested := HeadersRequested s; Verified := Verified s;
     ScoreUpdated := ScoreUpdated s;
     AddressesRequested := AddressesRequested s; MemPoolRequested := true |}.

(** The tail of [check]: the tracker's messages are queued one by one. *)
Fixpoint send_all (responses : list N) : M UntrustedNode unit :=
  match responses with
  | [] => ret tt
  | response :: rest => do _ <- send (Other response); send_all rest
  end.

(** The parts of [check], in the order of the source.  [request_headers] is
    the block guarded by [HandshakeComplete]; an error in its result is the
    error [check] returns at once. *)
Definition request_headers (env : CheckEnv) : M UntrustedNode (option Error) :=
  fun n =>
    if negb (HandshakeComplete (state n)) then
      match headerRequest env with
      | inl err => Returns (Some err) n
      | inr msg =>
          (do _ <- send (HeaderRequest msg);
           fun n => Returns None (set_state (mark_handshake (now env)) n)) n
      end
    else Returns None n.

Definition update_score : M UntrustedNode unit :=
  fun n =>
    if negb (ScoreUpdated (state n))
    then Returns tt (set_state mark_ScoreUpdated
                       (record (Scored (address n) 5) n))
    else Returns tt n.

Definition request_addresses : M UntrustedNode unit :=
  fun n =>
    if negb (AddressesRequested (state n))
    then (do _ <- send GetAddr;
          fun n => Returns tt (set_state mark_AddressesRequested n)) n
    else Returns tt n.

Definition request_mempool : M UntrustedNode unit :=
  fun n =>
    if negb (MemPoolRequested (state n))
    then (do _ <- send MemPoolRequest;
          fun n => Returns tt (set_state mark_MemPoolRequested n)) n
    else Returns tt n.

Definition check_tracker (env : CheckEnv) : M UntrustedNode (option Error) :=
  match trackerResponses env with
  | inl err => ret (Some err)
  | inr responses => do _ <- send_all responses; ret None
  end.

Definition check (env : CheckEnv) : M UntrustedNode (option Error) :=
  fun n =>
    if negb (VersionReceived (state n)) then Returns None n
    else
      (do err <- request_headers env;
       match err with
       | Some err => ret (Some err)
       | None =>
           fun n =>
             if negb (Verified (state n)) then Returns None n
             else
               (do _ <- update_score;
                do _ <- request_addresses;
                do _ <- request_mempool;
                check_tracker env) n
       end) n.

(** *** The life of a connection *)

(** Modelled from the spec: the command handlers and [sendOutgoing] are not
    part of the sources.  A handler signals the peer's version message and,
    later, that the peer's chain is verified, by raising the flag; the write
    loop takes the oldest message off the outgoing channel. *)
Definition mark_VersionReceived (pv : N) (s : UntrustedState) : UntrustedState :=
  {| ConnectedTime := ConnectedTime s; VersionReceived := true;
     ProtocolVersion := pv; HandshakeComplete := HandshakeComplete s;
     HeadersRequested := HeadersRequested s; Verified := Verified s;
     ScoreUpdated := ScoreUpdated s;
     AddressesRequested := AddressesRequested s;
     MemPoolRequested := MemPoolRequested s |}.
Definition mark_Verified (s : UntrustedState) : UntrustedState :=
  {| ConnectedTime := ConnectedTime s; VersionReceived := VersionReceived s;
     ProtocolVersion := ProtocolVersion s;
     HandshakeComplete := HandshakeComplete s;
     HeadersRequested := HeadersRequested s; Verified := true;
     ScoreUpdated := ScoreUpdated s;
     AddressesRequested := AddressesRequested s;
     MemPoolRequested := MemPoolRequested s |}.
Definition receive (n : UntrustedNode) : UntrustedNode :=
  set_outgoing {| buffer := tail (buffer (outgoing n));
                  closed := closed (outgoing n) |} n.

Inductive step :=
| DoCheck (env : CheckEnv)
| DoStop
| DoBroadcastTx (tx : MsgTx)
| GotVersion (pv : N)
| GotVerified
| Written.

Definition exec (s : step) : M UntrustedNode unit :=
  match s with
  | DoCheck env => do _ <- check env; ret tt
  | DoStop => do _ <- Stop; ret tt
  | DoBroadcastTx tx => do _ <- BroadcastTx tx; ret tt
  | GotVersion pv => fun n => Returns tt (set_state (mark_VersionReceived pv) n)
  | GotVerified => fun n => Returns tt (set_state mark_Verified n)
  | Written => fun n => Returns tt (receive n)
  end.

Fixpoint run (steps : list step) : M UntrustedNode unit :=
  match steps with
  | [] => ret tt
  | s :: rest => do _ <- exec s; run rest
  end.

(** [k] calls in a row; the errors they return are collected. *)
Fixpoint times {A} (k : nat) (c : M UntrustedNode A) : M UntrustedNode (list A) :=
  match k with
  | O => ret []
  | S k => do a <- c; do l <- times k c; ret (a :: l)
  end.

(** How often each one-shot action of [check] shows in a history. *)
Definition is_header_request (e : effect) : bool :=
  match e with Sent (HeaderRequest _) => true | _ => false end.
Definition is_score_update (e : effect) : bool :=
  match e with Scored _ 5 => true | _ => false end.
Definition is_get_addr (e : effect) : bool :=
  match e with Sent GetAddr => true | _ => false end.
Definition is_mempool_request (e : effect) : bool :=
  match e with Sent MemPoolRequest => true | _ => false end.
Definition is_close (e : effect) : bool :=
  match e with ChanClosed => true | _ => false end.

Definition occurrences (p : effect → bool) (n : UntrustedNode) : nat :=
  length (filter (fun e => p e = true) (history n)).

Definition once (b : bool) : nat := if b then 1%nat else 0%nat.

(** What holds of a node all along: [outgoingOpen] tells whether the channel
    is open, the channel was closed as often as it is closed, and each
    one-shot action of [check] was done as often as its flag says. *)
Definition consistent (n : UntrustedNode) : Prop :=
  outgoingOpen n = negb (closed (outgoing n)) ∧
  occurrences is_close n = once (closed (outgoing n)) ∧
  occurrences is_header_request n = once (HandshakeComplete (state n)) ∧
  occurrences is_score_update n = once (ScoreUpdated (state n)) ∧
  occurrences is_get_addr n = once (AddressesRequested (state n)) ∧
  occurrences is_mempool_request n = once (MemPoolRequested (state n)) ∧
  (HandshakeComplete (state n) = true → is_Some (HeadersRequested (state n))).

(** After [Stop]: the node knows its channel is closed, and nobody holds
    its mutex. *)
Definition inactive (n : UntrustedNode) : Prop :=
  outgoingOpen n = false ∧ mutex n = false.

(** The one-shot actions of [check] are marked done: the header request,
    and the three that follow the test of [Verified]. *)
Definition handshake_done (n : UntrustedNode) : Prop :=
  HandshakeComplete (state n) = true.
Definition sync_done (n : UntrustedNode) : Prop :=
  ScoreUpdated (state n) = true ∧ AddressesRequested (state n) = true ∧
  MemPoolRequested (state n) = true.

(** *** Connecting, and the two monitoring loops *)

Definition mark_connected (t : Time) (s : UntrustedState) : UntrustedState :=
  {| ConnectedTime := Some t; VersionReceived := VersionReceived s;
     ProtocolVersion := ProtocolVersion s;
     HandshakeComplete := HandshakeComplete s;
     HeadersRequested := HeadersRequested s; Verified := Verified s;
     ScoreUpdated := ScoreUpdated s;
     AddressesRequested := AddressesRequested s;
     MemPoolRequested := MemPoolRequested s |}.

(** [connect]: [dial] is what [net.DialTimeout] answers, an error or the
    handle of the new connection, and [t] is the clock read after a
    successful dial. *)
Definition connect (dial : Error + N) (t : Time) : M UntrustedNode (option Error) :=
  do _ <- disconnect;
  match dial with
  | inl err => ret (Some err)
  | inr c =>
      fun n => Returns None (set_state (mark_connected t) (set_conn (Some c) n))
  end.

(** [node.peers.UpdateScore(ctx, node.address, -1)]. *)
Definition penalise : M UntrustedNode unit :=
  fun n => Returns tt (record (Scored (address n) (-1)) n).

Definition is_conn_close (e : effect) : bool :=
  match e with ConnClosed => true | _ => false end.





(** One turn of the loop of [monitorRequestTimeouts]: [asleep] is what the
    rest of the node does during [sleepUntilStop], [timeout] what
    [node.state.CheckTimeouts()] returns, neither being part of the
    sources. *)
Record Tick := { asleep : list step; timeout : option Error }.

Definition timeouts_turn (t : Tick) : M UntrustedNode bool :=
  do _ <- run (asleep t);
  match timeout t with
  | Some _ => do _ <- penalise; do _ <- Stop; ret false
  | None => fun n => if stopping n then Returns false n else Returns true n
  end.

Fixpoint monitorRequestTimeouts (ticks : list Tick) : M UntrustedNode bool :=
  match ticks with
  | [] => ret true
  | t :: rest =>
      do go <- timeouts_turn t;
      if go then monitorRequestTimeouts rest else ret false
  end.

(** The node [n] after the messages [msgs] have been queued, the effects
    [evs] recorded and the connection state changed by [f], all else being
    as it was. *)
Definition extend (msgs : list Message) (evs : list effect)
    (f : UntrustedState → UntrustedState) (n : UntrustedNode) : UntrustedNode :=
  {| address := address n; state := f (state n); conn := conn n;
     outgoing := {| buffer := buffer (outgoing n) ++ msgs;
                    closed := closed (outgoing n) |};
     outgoingOpen := outgoingOpen n; stopping := stopping n;
     Active := Active n; mutex := mutex n;
     history := history n ++ evs |}.

(** Where a loop has ended, the node has been through [Stop]. *)
Definition stopped (n : UntrustedNode) : Prop :=
  stopping n = true ∧ outgoingOpen n = false ∧ conn n = None ∧
  mutex n = false.

End Spynode.

(** ** package inspector: building a transaction object *)

Module Inspector.

(** Modelled from the spec: the wire package is not part of the sources; an
    output carries a value and a script.  [MsgTx] above keeps the inputs
    only, so the outputs of a transaction are passed beside it. *)
Record TxOut_t := { Value : Z; PkScript : list Byte.byte }.

#[global] Instance byte_eq_dec : EqDecision Byte.byte := Byte.byte_eq_dec.

Inductive cause :=
| ErrDecodeFail
| ErrInvalidProtocol
| ErrMissingInputs
| ErrMissingOutputs.

(** [errors.Wrap(cause, message)]. *)
Record error := Wrap { Cause : cause; Message : string }.

Definition targetVersion : list Byte.byte :=
  [Byte.x00; Byte.x00; Byte.x00; Byte.x20].

(** [txscript.OP_RETURN]. *)
Definition OP_RETURN : Byte.byte := Byte.x6a.

(** [pkScript[i]], for an index the source has checked. *)
Definition at_ (pkScript : list Byte.byte) (i : nat) : Byte.byte :=
  nth i pkScript Byte.x00.

Definition isTokenizedOpReturn (pkScript : list Byte.byte) : bool :=
  if (length pkScript <? 20)%nat then false
  else
    let version :=
      if (Byte.to_N (at_ pkScript 1) <? 76)%N
      then take 4 (drop 2 pkScript)
      else take 4 (drop 3 pkScript) in
    bool_decide (version = targetVersion).

Section WithProtocol.

(** [protocol.OpReturnMessage], [protocol.New] with its error dropped as
    the source drops it ([None] is the nil message), and [tx.TxHash()]. *)
Variable OpReturnMessage : Type.
Variable protocol_New : list Byte.byte → option OpReturnMessage.
Variable TxHash : MsgTx → Hash.

Record Transaction := {
  Hash : Hash;
  Tx : MsgTx;
  Outputs : list TxOut_t;
  MsgProto : option OpReturnMessage
}.

(** The loop of [NewTransactionFromWire] over the outputs; [msg] is the
    message found so far. *)
Fixpoint parse_outputs (outs : list TxOut_t) (msg : option OpReturnMessage)
  : error + option OpReturnMessage :=
  match outs with
  | [] => inr msg
  | txOut :: rest =>
      if negb (isTokenizedOpReturn (PkScript txOut)) then
        parse_outputs rest msg
      else if negb (bool_decide (at_ (PkScript txOut) 0 = OP_RETURN)) then
        inl (Wrap ErrInvalidProtocol "parsing op return")
      else parse_outputs rest (protocol_New (PkScript txOut))
  end.

Definition NewTransactionFromWire (tx : MsgTx) (TxOut : list TxOut_t)
  : error + Transaction :=
  if (length (TxIn tx) =? 0)%nat then
    inl (Wrap ErrMissingInputs "parsing transaction")
  else if (length TxOut =? 0)%nat then
    inl (Wrap ErrMissingOutputs "parsing transaction")
  else
    match parse_outputs TxOut None with
    | inl err => inl err
    | inr msg =>
        inr {| Hash := TxHash tx; Tx := tx; Outputs := TxOut;
               MsgProto := msg |}
    end.

End WithProtocol.

(** The scripts among the outputs that carry the protocol signature. *)
Definition carriers (outs : list TxOut_t) : list (list Byte.byte) :=
  filter (fun s => isTokenizedOpReturn s = true) (PkScript <$> outs).

End Inspector.

(** ** Concrete transactions *)

Module Scenario.

#[global] Instance OutPoint_countable : Countable OutPoint :=
  inj_countable' (fun o => (OutPoint_Hash o, OutPoint_Index o))
                 (fun p => {| OutPoint_Hash := p.1; OutPoint_Index := p.2 |})
                 (fun o => match o with Build_OutPoint _ _ => eq_refl end).
#[global] Instance TxIn_t_countable : Countable TxIn_t :=
  inj_countable' PreviousOutPoint Build_TxIn_t
                 (fun i => match i with Build_TxIn_t _ => eq_refl end).
#[global] Instance MsgTx_countable : Countable MsgTx :=
  inj_countable' (fun t => (Version t, TxIn t, LockTime t))
                 (fun p => {| Version := p.1.1; TxIn := p.1.2; LockTime := p.2 |})
                 (fun t => match t with Build_MsgTx _ _ _ => eq_refl end).

(** Stand-ins for the two hash functions of the wire package: the number of
    the value in an enumeration of its type, so that distinct transactions
    and distinct outpoints get distinct hashes. *)
Definition TxHash (tx : MsgTx) : Hash := Npos (encode tx).
Definition OutpointHash (o : OutPoint) : Hash := Npos (encode o).

(** One outpoint and two transactions that both spend it. *)
Definition O1 : OutPoint := {| OutPoint_Hash := 7%N; OutPoint_Index := 0%N |}.
Definition txA : MsgTx :=
  {| Version := 1; TxIn := [ {| PreviousOutPoint := O1 |} ]; LockTime := 0%N |}.
Definition txB : MsgTx :=
  {| Version := 1; TxIn := [ {| PreviousOutPoint := O1 |} ]; LockTime := 1%N |}.

Definition AddTransaction := Data.AddTransaction TxHash OutpointHash.
Definition RemoveTransaction := Data.RemoveTransaction OutpointHash.
Definition Conflicting := Data.Conflicting OutpointHash.

(** The mempool after [AddTransaction(txA)] at time 10. *)
Definition pool_A : Data.MemPool :=
  final (AddTransaction 10 txA Data.NewMemPool).

(** The mempool after [AddTransaction(txA)], then [AddTransaction(txB)]. *)
Definition pool_AB : Data.MemPool :=
  final (AddTransaction 11 txB pool_A).

(** The mempool after [AddRequest] for hash 5 at time 0. *)
Definition pool_req : Data.MemPool :=
  final (Data.AddRequest 0 5%N Data.NewMemPool).

(** A node whose peer has sent its version and has not been verified. *)
Definition node_version : Spynode.UntrustedNode :=
  final (Spynode.exec (Spynode.GotVersion 70015%N)
           (Spynode.NewUntrustedNode "peer:8333")).

(** A node whose peer has sent its version and has been verified. *)
Definition node_verified : Spynode.UntrustedNode :=
  final (Spynode.run [Spynode.GotVersion 70015%N; Spynode.GotVerified]
           (Spynode.NewUntrustedNode "peer:8333")).

Definition env1 : Spynode.CheckEnv :=
  {| Spynode.now := 100; Spynode.headerRequest := inr 1%N;
     Spynode.trackerResponses := inr [] |}.

(** What [check] gets when the tracker has two responses, when the header
    request cannot be built, and when the tracker fails. *)
Definition env2 : Spynode.CheckEnv :=
  {| Spynode.now := 100; Spynode.headerRequest := inr 1%N;
     Spynode.trackerResponses := inr [7%N; 8%N] |}.
Definition env_no_header : Spynode.CheckEnv :=
  {| Spynode.now := 100; Spynode.headerRequest := inl "no headers"%string;
     Spynode.trackerResponses := inr [] |}.
Definition env_no_tracker : Spynode.CheckEnv :=
  {| Spynode.now := 100; Spynode.headerRequest := inr 1%N;
     Spynode.trackerResponses := inl "tracker failed"%string |}.

(** The verified node after its first [check]. *)
Definition node_synced : Spynode.UntrustedNode :=
  final (Spynode.check env1 node_verified).

(** A new node that has connected. *)
Definition node_connected : Spynode.UntrustedNode :=
  final (Spynode.connect (inr 3%N) 50 (Spynode.NewUntrustedNode "peer:8333")).


(** A script of twenty bytes that carries the protocol signature behind
    OP_RETURN and a one-byte push, ending in [last]. *)
Definition token_script (last : Byte.byte) : list Byte.byte :=
  [Byte.x6a; Byte.x13; Byte.x00; Byte.x00; Byte.x00; Byte.x20]
    ++ replicate 13 Byte.x00 ++ [last].

End Scenario.

(** * Properties of the mempool *)

Module MemPoolSpec.
Import Data.

Lemma unlock_lock m : mutex m = false → Unlock (set_mutex true m) = m.
Proof. destruct m; simpl; intros ->; reflexivity. Qed.

Lemma locked_free {A} (body : M MemPool A) m :
  mutex m = false →
  locked body m =
    match body (set_mutex true m) with
    | Returns a m2 => Returns a (Unlock m2)
    | Blocks m2 => Blocks m2
    | Panics m2 => Panics (Unlock m2)
    end.
Proof. intros Hm. unfold locked, bind, Lock. rewrite Hm. reflexivity. Qed.

Lemma locked_held {A} (body : M MemPool A) m :
  mutex m = true → locked body m = Blocks m.
Proof. intros Hm. unfold locked, bind, Lock. rewrite Hm. reflexivity. Qed.

(** A relation between the state before and the state left behind that
    holds of every part of a computation holds of the whole. *)
Lemma final_bind {St A B} (R : St → St → Prop) (c : M St A) (k : A → M St B) s :
  (∀ x y z, R x y → R y z → R x z) →
  R s (final (c s)) →
  (∀ a s', R s' (final (k a s'))) →
  R s (final (bind c k s)).
Proof.
  intros Htrans Hc Hk. unfold bind.
  destruct (c s) as [a s'| |]; simpl in *; eauto.
Qed.

(** [d.Seconds() > 3] on a saturated difference is the comparison of the
    true difference with three seconds. *)
Lemma older_than_3s_Sub now t :
  older_than_3s (Sub now t) = true ↔ 3 * Second < now - t.
Proof.
  unfold older_than_3s, Sub, maxDuration, minDuration, Second.
  change (2 ^ 63) with 9223372036854775808.
  repeat case_match; rewrite ?Z.ltb_lt, ?Z.ltb_ge in *; lia.
Qed.

Lemma AddRequest_tracked now txid m :
  mutex m = false → is_Some (txs m !! txid) →
  AddRequest now txid m = Returns (true, false) m.
Proof.
  intros Hm [e He]. unfold AddRequest. rewrite locked_free by done.
  simpl. rewrite He. by rewrite unlock_lock.
Qed.

Lemma AddRequest_first now txid m :
  mutex m = false → txs m !! txid = None → requests m !! txid = None →
  AddRequest now txid m = Returns (false, true) (set_requests <[txid := now]> m).
Proof.
  intros Hm Ht Hr. unfold AddRequest. rewrite locked_free by done.
  simpl. rewrite Ht. simpl. rewrite Hr. f_equal.
  destruct m; simpl in *; subst; reflexivity.
Qed.

Lemma AddRequest_old now txid m t :
  mutex m = false → txs m !! txid = None → requests m !! txid = Some t →
  3 * Second < now - t →
  AddRequest now txid m = Returns (false, true) (set_requests <[txid := now]> m).
Proof.
  intros Hm Ht Hr Hold. apply older_than_3s_Sub in Hold.
  unfold AddRequest. rewrite locked_free by done.
  simpl. rewrite Ht. simpl. rewrite Hr, Hold. f_equal.
  destruct m; simpl in *; subst; reflexivity.
Qed.

Lemma AddRequest_recent now txid m t :
  mutex m = false → txs m !! txid = None → requests m !! txid = Some t →
  now - t ≤ 3 * Second →
  AddRequest now txid m = Returns (false, false) m.
Proof.
  intros Hm Ht Hr Hrecent.
  assert (Hold : older_than_3s (Sub now t) = false).
  { destruct (older_than_3s (Sub now t)) eqn:E; [|done].
    apply older_than_3s_Sub in E. lia. }
  unfold AddRequest. rewrite locked_free by done.
  simpl. rewrite Ht. simpl. rewrite Hr, Hold. by rewrite unlock_lock.
Qed.

Section WithHashes.

Variable TxHash : MsgTx → Hash.
Variable OutpointHash : OutPoint → Hash.

Local Abbreviation AddTransaction := (AddTransaction TxHash OutpointHash).
Local Abbreviation RemoveTransaction := (RemoveTransaction OutpointHash).
Local Abbreviation Conflicting := (Conflicting OutpointHash).
Local Abbreviation add_outpoint := (add_outpoint OutpointHash).
Local Abbreviation remove_outpoint := (remove_outpoint OutpointHash).
Local Abbreviation conflicting_list := (conflicting_list OutpointHash).
Local Abbreviation conflicting_inputs := (conflicting_inputs OutpointHash).

Lemma AddTransaction_new now tx m :
  mutex m = false → txs m !! TxHash tx = None →
  AddTransaction now tx m =
    Returns ([], true)
      (set_inputs
         (fun inputs => foldl (add_outpoint (TxHash tx) []) inputs
                          (outPoints (newMemPoolTx now tx)))
         (set_txs <[TxHash tx := newMemPoolTx now tx]> m)).
Proof.
  intros Hm Hnew. unfold Data.AddTransaction. rewrite locked_free by done.
  simpl. rewrite Hnew. f_equal.
  destruct m; simpl in *; subst; reflexivity.
Qed.

Lemma AddTransaction_known now tx m :
  mutex m = false → is_Some (txs m !! TxHash tx) →
  AddTransaction now tx m = Returns ([], false) m.
Proof.
  intros Hm [e He]. unfold Data.AddTransaction. rewrite locked_free by done.
  simpl. rewrite He. by rewrite unlock_lock.
Qed.

Lemma RemoveTransaction_tracked hash m e :
  mutex m = false → txs m !! hash = Some e →
  RemoveTransaction hash m =
    Returns true
      (set_txs (delete hash)
         (set_inputs (fun inputs => foldl remove_outpoint inputs (outPoints e))
            m)).
Proof.
  intros Hm He. unfold Data.RemoveTransaction. rewrite locked_free by done.
  simpl. rewrite He. f_equal.
  destruct m; simpl in *; subst; reflexivity.
Qed.

Lemma RemoveTransaction_absent hash m :
  mutex m = false → txs m !! hash = None →
  RemoveTransaction hash m = Returns false m.
Proof.
  intros Hm He. unfold Data.RemoveTransaction. rewrite locked_free by done.
  simpl. rewrite He. by rewrite unlock_lock.
Qed.

Lemma TransactionExists_free hash m :
  mutex m = false →
  TransactionExists hash m =
    Returns (bool_decide (is_Some (txs m !! hash))) m.
Proof.
  intros Hm. unfold TransactionExists. rewrite locked_free by done.
  simpl. by rewrite unlock_lock.
Qed.

(** The loop of [AddTransaction] leaves the slices it finds as they are. *)
Lemma add_outpoints_keep hash result ops (ins : gmap Hash (list Hash)) o lst :
  ins !! o = Some lst →
  foldl (add_outpoint hash result) ins ops !! o = Some lst.
Proof.
  revert ins. induction ops as [|p ops IH]; intros ins Ho; simpl; [done|].
  apply IH. unfold Data.add_outpoint.
  destruct (ins !! OutpointHash p) eqn:E; [done|].
  rewrite lookup_insert_ne; [done|]. intros <-. congruence.
Qed.

(** C4: a transaction whose hash is not yet tracked is accepted
    ([added = true]) and is tracked from then on; a second [AddTransaction]
    of the same transaction, at whatever time, returns [added = false] and
    leaves the mempool as it was, so the tracked entries and their number are
    unchanged. *)
Theorem AddTransaction_twice now now' tx m :
  mutex m = false →
  txs m !! TxHash tx = None →
  ∃ m1,
    AddTransaction now tx m = Returns ([], true) m1 ∧
    dom (txs m1) = {[TxHash tx]} ∪ dom (txs m) ∧
    AddTransaction now' tx m1 = Returns ([], false) m1 ∧
    size (txs (final (AddTransaction now' tx m1))) = size (txs m1).
Proof.
  intros Hm Hnew. eexists. split; [by apply AddTransaction_new|].
  split; [simpl; by rewrite dom_insert_L|].
  assert (Hagain : ∀ m1, mutex m1 = false → is_Some (txs m1 !! TxHash tx) →
            AddTransaction now' tx m1 = Returns ([], false) m1)
    by (intros; by apply AddTransaction_known).
  rewrite Hagain; [done|done|]. simpl. rewrite lookup_insert_eq. by eexists.
Qed.

(** C6: a transaction that is not yet tracked is accepted with an empty
    conflict list, and every entry tracked before is tracked after with the
    same content, as is every slice of the input index; this holds whether or
    not another tracked transaction spends one of the same outpoints. *)
Theorem AddTransaction_removes_nothing now tx m :
  mutex m = false →
  txs m !! TxHash tx = None →
  ∃ m1,
    AddTransaction now tx m = Returns ([], true) m1 ∧
    (∀ h e, txs m !! h = Some e → txs m1 !! h = Some e) ∧
    (∀ o lst, inputs m !! o = Some lst → inputs m1 !! o = Some lst).
Proof.
  intros Hm Hnew. eexists. split; [by apply AddTransaction_new|]. simpl.
  split.
  - intros h e He. rewrite lookup_insert_ne; [done|]. intros <-. congruence.
  - intros o lst Ho. by apply add_outpoints_keep.
Qed.

End WithHashes.

(** C4, on the empty mempool and the transaction [txA]. *)
Lemma AddTransaction_twice_witness :
  mutex NewMemPool = false ∧
  txs NewMemPool !! Scenario.TxHash Scenario.txA = None ∧
  ∃ m1,
    Scenario.AddTransaction 10 Scenario.txA NewMemPool = Returns ([], true) m1 ∧
    dom (txs m1) = {[Scenario.TxHash Scenario.txA]} ∪ dom (txs NewMemPool) ∧
    Scenario.AddTransaction 12 Scenario.txA m1 = Returns ([], false) m1 ∧
    size (txs (final (Scenario.AddTransaction 12 Scenario.txA m1))) =
      size (txs m1).
Proof.
  split; [reflexivity|]. split; [reflexivity|].
  apply (AddTransaction_twice Scenario.TxHash Scenario.OutpointHash
           10 12 Scenario.txA NewMemPool); reflexivity.
Defined.

(** C6, on a mempool where [txA] already spends the outpoint of [txB]. *)
Lemma AddTransaction_removes_nothing_witness :
  mutex Scenario.pool_A = false ∧
  txs Scenario.pool_A !! Scenario.TxHash Scenario.txB = None ∧
  ∃ m1,
    Scenario.AddTransaction 11 Scenario.txB Scenario.pool_A
      = Returns ([], true) m1 ∧
    (∀ h e, txs Scenario.pool_A !! h = Some e → txs m1 !! h = Some e) ∧
    (∀ o lst, inputs Scenario.pool_A !! o = Some lst →
              inputs m1 !! o = Some lst).
Proof.
  split; [reflexivity|]. split; [vm_compute; reflexivity|].
  apply (AddTransaction_removes_nothing Scenario.TxHash Scenario.OutpointHash
           11 Scenario.txB Scenario.pool_A); vm_compute; reflexivity.
Defined.

(** C5, as stated, fails when exactly three seconds have passed: the request
    recorded at time 0 is still counted as active at time 3 s, nothing is
    recorded and [shouldRequest] is false. *)
Lemma AddRequest_exactly_3s_not_requested :
  txs Scenario.pool_req !! 5%N = None ∧
  requests Scenario.pool_req !! 5%N = Some 0 ∧
  Sub (3 * Second) 0 = 3 * Second ∧
  AddRequest (3 * Second) 5 Scenario.pool_req
    = Returns (false, false) Scenario.pool_req ∧
  AddRequest (3 * Second) 5 Scenario.pool_req
    ≠ Returns (false, true)
        (set_requests <[5%N := 3 * Second]> Scenario.pool_req).
Proof.
  assert (H : AddRequest (3 * Second) 5 Scenario.pool_req
              = Returns (false, false) Scenario.pool_req)
    by (vm_compute; reflexivity).
  split; [reflexivity|]. split; [reflexivity|]. split; [reflexivity|].
  split; [exact H|]. rewrite H. intros Heq. inversion Heq.
Qed.

(** C5, amended: for a tracked hash [AddRequest] returns [(true, false)] and
    changes nothing; otherwise, when no request was ever recorded for the
    hash or strictly more than three seconds have passed since the recorded
    one, it records the current time and returns [(false, true)]; otherwise
    (three seconds or less) it returns [(false, false)] and changes
    nothing. *)
Theorem AddRequest_cases now txid m :
  mutex m = false →
  (is_Some (txs m !! txid) →
     AddRequest now txid m = Returns (true, false) m) ∧
  (txs m !! txid = None → requests m !! txid = None →
     AddRequest now txid m
       = Returns (false, true) (set_requests <[txid := now]> m)) ∧
  (∀ t, txs m !! txid = None → requests m !! txid = Some t →
     3 * Second < now - t →
     AddRequest now txid m
       = Returns (false, true) (set_requests <[txid := now]> m)) ∧
  (∀ t, txs m !! txid = None → requests m !! txid = Some t →
     now - t ≤ 3 * Second →
     AddRequest now txid m = Returns (false, false) m).
Proof.
  intros Hm. repeat split; intros.
  - by apply AddRequest_tracked.
  - by apply AddRequest_first.
  - by eapply AddRequest_old.
  - by eapply AddRequest_recent.
Qed.

(** C5 amended, on concrete mempools: a tracked hash, a first request, a
    request one nanosecond older than three seconds and one exactly three
    seconds old. *)
Lemma AddRequest_cases_witness :
  AddRequest 20 (Scenario.TxHash Scenario.txA) Scenario.pool_A
    = Returns (true, false) Scenario.pool_A ∧
  AddRequest 0 5 NewMemPool
    = Returns (false, true) (set_requests <[5%N := 0]> NewMemPool) ∧
  AddRequest (3 * Second + 1) 5 Scenario.pool_req
    = Returns (false, true)
        (set_requests <[5%N := 3 * Second + 1]> Scenario.pool_req) ∧
  AddRequest (3 * Second) 5 Scenario.pool_req
    = Returns (false, false) Scenario.pool_req.
Proof.
  assert (Hreq : mutex Scenario.pool_req = false) by reflexivity.
  assert (HA : mutex Scenario.pool_A = false) by reflexivity.
  assert (H0 : mutex NewMemPool = false) by reflexivity.
  split; [|split; [|split]].
  - apply (AddRequest_cases 20 (Scenario.TxHash Scenario.txA)
             Scenario.pool_A HA).
    vm_compute. eexists. reflexivity.
  - apply (AddRequest_cases 0 5%N NewMemPool H0); reflexivity.
  - apply (AddRequest_cases (3 * Second + 1) 5%N Scenario.pool_req Hreq)
      with (t := 0); vm_compute; reflexivity.
  - apply (AddRequest_cases (3 * Second) 5%N Scenario.pool_req Hreq)
      with (t := 0); vm_compute; try reflexivity. intros H; discriminate H.
Defined.

Section Frames.

Variable TxHash : MsgTx → Hash.
Variable OutpointHash : OutPoint → Hash.

Local Abbreviation AddTransaction := (AddTransaction TxHash OutpointHash).
Local Abbreviation RemoveTransaction := (RemoveTransaction OutpointHash).
Local Abbreviation Conflicting := (Conflicting OutpointHash).
Local Abbreviation conflicting_list := (conflicting_list OutpointHash).
Local Abbreviation conflicting_inputs := (conflicting_inputs OutpointHash).

(** Whatever a call does to the mempool, it does inside [locked]. *)
Lemma locked_requests {A} (body : M MemPool A) :
  (∀ m, requests (final (body m)) = requests m) →
  ∀ m, requests (final (locked body m)) = requests m.
Proof.
  intros Hbody m. unfold locked, bind, Lock.
  destruct (mutex m); [done|]. specialize (Hbody (set_mutex true m)).
  destruct (body (set_mutex true m)); simpl in *; done.
Qed.

Lemma AddTransaction_requests now tx m :
  requests (final (AddTransaction now tx m)) = requests m.
Proof.
  apply locked_requests. clear m. intros m. cbv zeta.
  destruct (txs m !! TxHash tx); reflexivity.
Qed.

Lemma RemoveTransaction_requests hash m :
  requests (final (RemoveTransaction hash m)) = requests m.
Proof.
  apply locked_requests. clear m. intros m. cbv zeta.
  destruct (txs m !! hash); reflexivity.
Qed.

Lemma TransactionExists_requests hash m :
  requests (final (TransactionExists hash m)) = requests m.
Proof. apply locked_requests. done. Qed.

Lemma conflicting_list_requests lst result m :
  requests (final (conflicting_list lst result m)) = requests m.
Proof.
  revert result m. induction lst as [|h lst IH]; intros result m; [done|].
  simpl.
  apply (final_bind (fun s s' => requests s' = requests s)).
  - intros x y z Hxy Hyz. congruence.
  - apply RemoveTransaction_requests.
  - intros _ s'. apply IH.
Qed.

Lemma conflicting_inputs_requests ins result m :
  requests (final (conflicting_inputs ins result m)) = requests m.
Proof.
  revert result m. induction ins as [|input ins IH]; intros result m; [done|].
  simpl. destruct (inputs m !! _) as [lst|]; [|apply IH].
  apply (final_bind (fun s s' => requests s' = requests s)).
  - intros x y z Hxy Hyz. congruence.
  - apply conflicting_list_requests.
  - intros r s'. apply IH.
Qed.

Lemma Conflicting_requests tx m :
  requests (final (Conflicting tx m)) = requests m.
Proof. apply locked_requests. apply conflicting_inputs_requests. Qed.

(** C10: whatever the state of the mempool and however the call ends,
    [AddTransaction], [RemoveTransaction], [TransactionExists] and
    [Conflicting] leave the request table as it was; [AddRequest] sets the
    time of the hash it is asked about when it returns [(false, true)] and
    leaves the table as it was in every other case.  No entry is ever
    deleted. *)
Theorem requests_never_deleted now txid hash tx m :
  requests (final (AddTransaction now tx m)) = requests m ∧
  requests (final (RemoveTransaction hash m)) = requests m ∧
  requests (final (TransactionExists hash m)) = requests m ∧
  requests (final (Conflicting tx m)) = requests m ∧
  match returned (AddRequest now txid m) with
  | Some (false, true) =>
      requests (final (AddRequest now txid m)) = <[txid := now]> (requests m)
  | _ => requests (final (AddRequest now txid m)) = requests m
  end ∧
  (∀ h t, requests m !! h = Some t →
     is_Some (requests (final (AddRequest now txid m)) !! h)).
Proof.
  split; [apply AddTransaction_requests|].
  split; [apply RemoveTransaction_requests|].
  split; [apply TransactionExists_requests|].
  split; [apply Conflicting_requests|].
  unfold AddRequest, locked, bind, Lock.
  destruct (mutex m); [simpl; eauto|]. simpl.
  destruct (txs m !! txid); [simpl; eauto|]. simpl.
  destruct (requests m !! txid) as [t0|] eqn:Hreq; simpl.
  - destruct (older_than_3s (Sub now t0)); simpl; [|eauto].
    split; [done|]. intros h t Hh.
    destruct (decide (txid = h)) as [->|Hne].
    + rewrite lookup_insert_eq. eauto.
    + rewrite lookup_insert_ne by done. eauto.
  - split; [done|]. intros h t Hh.
    destruct (decide (txid = h)) as [->|Hne].
    + rewrite lookup_insert_eq. eauto.
    + rewrite lookup_insert_ne by done. eauto.
Qed.

End Frames.

Section Index.

Variable TxHash : MsgTx → Hash.
Variable OutpointHash : OutPoint → Hash.

Local Abbreviation AddTransaction := (AddTransaction TxHash OutpointHash).
Local Abbreviation RemoveTransaction := (RemoveTransaction OutpointHash).
Local Abbreviation Conflicting := (Conflicting OutpointHash).
Local Abbreviation add_outpoint := (add_outpoint OutpointHash).
Local Abbreviation remove_outpoint := (remove_outpoint OutpointHash).
Local Abbreviation conflicting_list := (conflicting_list OutpointHash).
Local Abbreviation conflicting_inputs := (conflicting_inputs OutpointHash).
Local Abbreviation spent := (spent OutpointHash).
Local Abbreviation exec := (exec TxHash OutpointHash).
Local Abbreviation execs := (execs TxHash OutpointHash).
Local Abbreviation between_calls := (between_calls OutpointHash).

(** *** [Conflicting] and its own mutex *)

(** With the mutex held, the inner loop of [Conflicting] parks at its first
    turn. *)
Lemma conflicting_list_held lst result m :
  mutex m = true →
  conflicting_list lst result m =
    match lst with [] => Returns result m | _ :: _ => Blocks m end.
Proof.
  intros Hm. destruct lst as [|h lst]; [done|]. simpl. unfold bind.
  unfold Data.RemoveTransaction. by rewrite locked_held.
Qed.

(** With the mutex held, the loops of [Conflicting] either find no spender
    at all and hand back the result they were given, or park; the mempool
    itself is as before in both cases. *)
Lemma conflicting_inputs_held ins result m :
  mutex m = true →
  conflicting_inputs ins result m = Returns result m ∨
  conflicting_inputs ins result m = Blocks m.
Proof.
  intros Hm. revert result. induction ins as [|input ins IH]; intros result.
  - by left.
  - simpl. destruct (inputs m !! _) as [lst|]; [|apply IH].
    unfold bind. rewrite conflicting_list_held by done.
    destruct lst; [apply IH|by right].
Qed.

Lemma conflicting_inputs_parks ins result m input h lst :
  mutex m = true →
  input ∈ ins →
  inputs m !! OutpointHash (PreviousOutPoint input) = Some (h :: lst) →
  conflicting_inputs ins result m = Blocks m.
Proof.
  intros Hm Hin Hlook. revert result.
  induction ins as [|i ins IH]; intros result.
  - by apply elem_of_nil in Hin.
  - simpl. unfold bind.
    destruct (decide (i = input)) as [->|Hne].
    + rewrite Hlook, conflicting_list_held by done. done.
    + apply elem_of_cons in Hin as [->|Hin]; [done|].
      destruct (inputs m !! OutpointHash (PreviousOutPoint i)) as [l|];
        [|by apply IH].
      rewrite conflicting_list_held by done.
      destruct l; [by apply IH|done].
Qed.

(** [Conflicting] never comes back when one input of the transaction is
    indexed: its call of [RemoveTransaction] waits for the mutex that
    [Conflicting] itself holds. *)
Lemma Conflicting_parks tx m input h lst :
  mutex m = false →
  input ∈ TxIn tx →
  inputs m !! OutpointHash (PreviousOutPoint input) = Some (h :: lst) →
  Conflicting tx m = Blocks (set_mutex true m).
Proof.
  intros Hm Hin Hlook. unfold Data.Conflicting. rewrite locked_free by done.
  by erewrite conflicting_inputs_parks.
Qed.

(** When [Conflicting] does return, it has found nothing and changed
    nothing. *)
Lemma Conflicting_returns tx m r m' :
  mutex m = false →
  Conflicting tx m = Returns r m' → r = [] ∧ m' = m.
Proof.
  intros Hm. unfold Data.Conflicting. rewrite locked_free by done.
  destruct (conflicting_inputs_held (TxIn tx) [] (set_mutex true m))
    as [-> | ->]; [done| |done].
  intros [= <- <-]. by rewrite unlock_lock.
Qed.

(** *** The input index between calls *)

Lemma add_outpoints_lookup hash result ops (ins : gmap Hash (list Hash)) o lst :
  foldl (add_outpoint hash result) ins ops !! o = Some lst →
  ins !! o = Some lst ∨ (lst = [hash] ∧ o ∈ OutpointHash <$> ops).
Proof.
  revert ins. induction ops as [|p ops IH]; intros ins; simpl; [by left|].
  intros H. apply IH in H as [H|[-> Hin]].
  - unfold Data.add_outpoint in H.
    destruct (ins !! OutpointHash p) eqn:E; [by left|].
    destruct (decide (OutpointHash p = o)) as [<-|Hne].
    + rewrite lookup_insert_eq in H. injection H as <-.
      right. split; [done|]. apply elem_of_cons. by left.
    + rewrite lookup_insert_ne in H by done. by left.
  - right. split; [done|]. apply elem_of_cons. by right.
Qed.

(** On an index of one-hash slices, a turn of the loop of
    [RemoveTransaction] deletes the slice of the outpoint. *)
Lemma remove_outpoint_single (ins : gmap Hash (list Hash)) p :
  (∀ o lst, ins !! o = Some lst → length lst = 1%nat) →
  remove_outpoint ins p = delete (OutpointHash p) ins.
Proof.
  intros Hone. unfold Data.remove_outpoint.
  destruct (ins !! OutpointHash p) as [lst|] eqn:E.
  - by rewrite (Hone _ _ E).
  - symmetry. by apply delete_id.
Qed.

Lemma remove_outpoints_sub ops (ins : gmap Hash (list Hash)) o lst :
  (∀ o lst, ins !! o = Some lst → length lst = 1%nat) →
  foldl remove_outpoint ins ops !! o = Some lst →
  ins !! o = Some lst ∧ o ∉ OutpointHash <$> ops.
Proof.
  revert ins. induction ops as [|p ops IH]; intros ins Hone; simpl.
  - intros H. split; [done|]. apply not_elem_of_nil.
  - rewrite remove_outpoint_single by done. intros H.
    apply IH in H as [H Hnin].
    + apply lookup_delete_Some in H as [Hne H]. split; [done|].
      intros [->|Hin]%elem_of_cons; done.
    + intros o' l H'. apply lookup_delete_Some in H' as [_ H']. eauto.
Qed.

Lemma between_calls_single m o lst :
  between_calls m → inputs m !! o = Some lst → length lst = 1%nat.
Proof. intros [_ H] Ho. destruct (H _ _ Ho) as (h & e & -> & _). done. Qed.

Lemma AddRequest_between_calls now txid m r m' :
  between_calls m → AddRequest now txid m = Returns r m' → between_calls m'.
Proof.
  intros [Hm Hidx]. unfold AddRequest. rewrite locked_free by done. simpl.
  destruct (txs m !! txid); simpl.
  { intros [= <- <-]. by rewrite unlock_lock. }
  destruct (requests m !! txid) as [t|]; simpl.
  - destruct (older_than_3s (Sub now t)); intros [= <- <-].
    + split; [done|]. exact Hidx.
    + by rewrite unlock_lock.
  - intros [= <- <-]. split; [done|]. exact Hidx.
Qed.

Lemma AddTransaction_between_calls now tx m r m' :
  between_calls m → AddTransaction now tx m = Returns r m' → between_calls m'.
Proof.
  intros [Hm Hidx]. destruct (txs m !! TxHash tx) as [e|] eqn:He.
  - rewrite AddTransaction_known by eauto. intros [= <- <-]. done.
  - rewrite AddTransaction_new by done. intros [= <- <-].
    split; [done|]. simpl. intros o lst Ho.
    apply add_outpoints_lookup in Ho as [Ho|[-> Ho]].
    + destruct (Hidx _ _ Ho) as (h & e & -> & Hh & Hs).
      exists h, e. split; [done|]. split; [|done].
      rewrite lookup_insert_ne; [done|]. intros <-. congruence.
    + exists (TxHash tx), (newMemPoolTx now tx).
      split; [done|]. split; [apply lookup_insert_eq|done].
Qed.

Lemma RemoveTransaction_between_calls hash m r m' :
  between_calls m → RemoveTransaction hash m = Returns r m' → between_calls m'.
Proof.
  intros Hbc. pose proof Hbc as [Hm Hidx].
  destruct (txs m !! hash) as [e|] eqn:He.
  - rewrite (RemoveTransaction_tracked _ _ _ e) by done. intros [= <- <-].
    split; [done|]. simpl. intros o lst Ho.
    apply remove_outpoints_sub in Ho as [Ho Hnin];
      [|intros; by eapply between_calls_single].
    destruct (Hidx _ _ Ho) as (h & e' & -> & Hh & Hs).
    exists h, e'. split; [done|]. split; [|done].
    rewrite lookup_delete_ne; [done|]. intros <-.
    assert (e' = e) as -> by congruence. done.
  - rewrite RemoveTransaction_absent by done. intros [= <- <-]. done.
Qed.

Lemma exec_between_calls c m m' :
  between_calls m → exec c m = Returns tt m' → between_calls m'.
Proof.
  intros Hbc. destruct c as [now txid|now tx|hash|hash|tx]; simpl; unfold bind.
  - destruct (AddRequest now txid m) as [r s| |] eqn:E; [|done..].
    intros [= <-]. by eapply AddRequest_between_calls.
  - destruct (AddTransaction now tx m) as [r s| |] eqn:E; [|done..].
    intros [= <-]. by eapply AddTransaction_between_calls.
  - destruct (RemoveTransaction hash m) as [r s| |] eqn:E; [|done..].
    intros [= <-]. by eapply RemoveTransaction_between_calls.
  - rewrite TransactionExists_free by apply Hbc. by intros [= <-].
  - destruct (Conflicting tx m) as [r s| |] eqn:E; [|done..].
    intros [= <-]. apply Conflicting_returns in E as [_ ->]; [done|apply Hbc].
Qed.

Lemma execs_between_calls cs m m' :
  between_calls m → execs cs m = Returns tt m' → between_calls m'.
Proof.
  revert m. induction cs as [|c cs IH]; intros m Hbc; simpl.
  - by intros [= <-].
  - unfold bind. destruct (exec c m) as [[] s| |] eqn:E; [|done..].
    apply IH. by eapply exec_between_calls.
Qed.

(** In every state the mempool can be in between two calls, each hash the
    index lists under an outpoint is a tracked entry that spends that
    outpoint, every slice holds one hash, and the mutex is free. *)
Lemma reachable_index_sound m :
  reachable TxHash OutpointHash m →
  index_sound OutpointHash m ∧ between_calls m.
Proof.
  intros [cs Hcs].
  assert (Hbc : between_calls m).
  { eapply execs_between_calls; [|exact Hcs]. split; [done|].
    intros o lst Ho. simpl in Ho. by rewrite lookup_empty in Ho. }
  split; [|done]. intros o lst h Ho Hh.
  destruct Hbc as [_ Hidx]. destruct (Hidx _ _ Ho) as (h' & e & -> & He & Hs).
  apply list_elem_of_singleton in Hh as ->. eauto.
Qed.

End Index.

(** *** The calls on two transactions that spend one outpoint *)

(** C1: with [txA] tracked and indexed under the outpoint [O1], a call of
    [Conflicting] on the untracked [txB], which spends [O1] too, does not
    return: it parks on the mutex it holds itself, and [txA] is still
    tracked. *)
Theorem Conflicting_parks_with_conflict :
  Scenario.AddTransaction 10 Scenario.txA NewMemPool
    = Returns ([], true) Scenario.pool_A ∧
  inputs Scenario.pool_A !! Scenario.OutpointHash Scenario.O1
    = Some [Scenario.TxHash Scenario.txA] ∧
  txs Scenario.pool_A !! Scenario.TxHash Scenario.txB = None ∧
  Scenario.Conflicting Scenario.txB Scenario.pool_A
    = Blocks (set_mutex true Scenario.pool_A) ∧
  returned (Scenario.Conflicting Scenario.txB Scenario.pool_A) = None ∧
  txs (final (Scenario.Conflicting Scenario.txB Scenario.pool_A))
    !! Scenario.TxHash Scenario.txA
    = Some {| time := 10; outPoints := [Scenario.O1] |}.
Proof.
  assert (H : Scenario.Conflicting Scenario.txB Scenario.pool_A
              = Blocks (set_mutex true Scenario.pool_A)).
  { apply (Conflicting_parks Scenario.OutpointHash Scenario.txB
             Scenario.pool_A {| PreviousOutPoint := Scenario.O1 |}
             (Scenario.TxHash Scenario.txA) []).
    - reflexivity.
    - apply list_elem_of_singleton. reflexivity.
    - vm_compute. reflexivity. }
  split; [vm_compute; reflexivity|].
  split; [vm_compute; reflexivity|].
  split; [vm_compute; reflexivity|].
  split; [exact H|]. rewrite H.
  split; [reflexivity|]. vm_compute. reflexivity.
Qed.

(** C2: with [txA] and [txB] both tracked and both spending [O1],
    [RemoveTransaction] of [txB] returns true and deletes the entry of
    [txB], and with it the slice of [O1], which held the hash of [txA]:
    [txA] is still tracked and spends [O1], and the index no longer says
    so. *)
Theorem RemoveTransaction_unindexes_cospender :
  Scenario.AddTransaction 10 Scenario.txA NewMemPool
    = Returns ([], true) Scenario.pool_A ∧
  Scenario.AddTransaction 11 Scenario.txB Scenario.pool_A
    = Returns ([], true) Scenario.pool_AB ∧
  inputs Scenario.pool_AB !! Scenario.OutpointHash Scenario.O1
    = Some [Scenario.TxHash Scenario.txA] ∧
  ∃ m',
    Scenario.RemoveTransaction (Scenario.TxHash Scenario.txB) Scenario.pool_AB
      = Returns true m' ∧
    txs m' !! Scenario.TxHash Scenario.txB = None ∧
    txs m' !! Scenario.TxHash Scenario.txA
      = Some {| time := 10; outPoints := [Scenario.O1] |} ∧
    inputs m' !! Scenario.OutpointHash Scenario.O1 = None.
Proof.
  split; [vm_compute; reflexivity|].
  split; [vm_compute; reflexivity|].
  split; [vm_compute; reflexivity|].
  eexists. split; [vm_compute; reflexivity|].
  repeat split; vm_compute; reflexivity.
Qed.

(** C3: with [txA] tracked and indexed under [O1], [AddTransaction] accepts
    [txB], which spends [O1] too, and the slice of [O1] still holds the hash
    of [txA] alone: the new entry spends an outpoint whose slice does not
    list it. *)
Theorem AddTransaction_skips_indexed_outpoint :
  Scenario.AddTransaction 10 Scenario.txA NewMemPool
    = Returns ([], true) Scenario.pool_A ∧
  Scenario.AddTransaction 11 Scenario.txB Scenario.pool_A
    = Returns ([], true) Scenario.pool_AB ∧
  txs Scenario.pool_AB !! Scenario.TxHash Scenario.txB
    = Some {| time := 11; outPoints := [Scenario.O1] |} ∧
  inputs Scenario.pool_AB !! Scenario.OutpointHash Scenario.O1
    = Some [Scenario.TxHash Scenario.txA] ∧
  (Scenario.TxHash Scenario.txB ∉ [Scenario.TxHash Scenario.txA]) ∧
  ¬ index_complete Scenario.OutpointHash Scenario.pool_AB.
Proof.
  assert (Hidx : inputs Scenario.pool_AB !! Scenario.OutpointHash Scenario.O1
                 = Some [Scenario.TxHash Scenario.txA])
    by (vm_compute; reflexivity).
  assert (Hne : Scenario.TxHash Scenario.txB ∉ [Scenario.TxHash Scenario.txA]).
  { intros Hin%list_elem_of_singleton. vm_compute in Hin. discriminate Hin. }
  split; [vm_compute; reflexivity|].
  split; [vm_compute; reflexivity|].
  split; [vm_compute; reflexivity|].
  split; [exact Hidx|]. split; [exact Hne|].
  intros Hcomplete.
  destruct (Hcomplete (Scenario.TxHash Scenario.txB)
              {| time := 11; outPoints := [Scenario.O1] |}
              (Scenario.OutpointHash Scenario.O1)) as (lst & Hl & Hin).
  - vm_compute. reflexivity.
  - apply list_elem_of_singleton. reflexivity.
  - rewrite Hidx in Hl. injection Hl as <-. contradiction.
Qed.

End MemPoolSpec.

(** * Properties of the untrusted node *)

Module NodeSpec.
Import Spynode.

Lemma keeps_ret {St A} (P : St → Prop) (a : A) : keeps P (ret a).
Proof. intros s Hs. exact Hs. Qed.

Lemma keeps_bind {St A B} (P : St → Prop) (c : M St A) (k : A → M St B) :
  keeps P c → (∀ a, keeps P (k a)) → keeps P (bind c k).
Proof.
  intros Hc Hk s Hs. specialize (Hc s Hs). unfold bind.
  destruct (c s) as [a s'| |]; simpl in *; [by apply Hk|done..].
Qed.


Lemma once_le_1 b : (once b ≤ 1)%nat.
Proof. destruct b; simpl; lia. Qed.

(** Unfold a node into its fields and the calls on it into their cases. *)
Ltac fields n :=
  let st := fresh "st" in
  let out := fresh "out" in
  destruct n as [? st ? out ? ? ? ? ?]; destruct st; destruct out;
  simpl in *.

Ltac cases :=
  repeat match goal with
         | |- context [if negb ?b then _ else _] =>
             is_var b; destruct b; simpl in *
         | |- context [if ?b then _ else _] =>
             is_var b; destruct b; simpl in *
         | |- context [if ?b then _ else _] =>
             destruct b eqn:?; simpl in *
         | |- context [match ?x with inl _ => _ | inr _ => _ end] =>
             destruct x; simpl in *
         | |- context [match ?x with Some _ => _ | None => _ end] =>
             is_var x; destruct x; simpl in *
         end.

(** Settle a goal about the fields and the history of a node after a call
    that has been unfolded. *)
Ltac settle :=
  unfold consistent, occurrences, Unlock in *; simpl in *; cases;
  rewrite ?filter_app, ?length_app in *; simpl in *;
  intuition (try done; try lia).

(** *** The parts of [check] keep the node consistent *)

(** [check] keeps what each of its parts keeps. *)
Lemma check_keeps (P : UntrustedNode → Prop) env :
  (∀ r, keeps P (send (Other r))) →
  keeps P (request_headers env) →
  keeps P update_score →
  keeps P request_addresses →
  keeps P request_mempool →
  keeps P (check env).
Proof.
  intros Hsend Hhdr Hscore Haddr Hmem n Hn. unfold check.
  destruct (negb (VersionReceived (state n))); [done|].
  revert n Hn. apply keeps_bind; [done|].
  intros [err|]; [apply keeps_ret|]. intros n Hn.
  destruct (negb (Verified (state n))); [done|]. revert n Hn.
  apply keeps_bind; [done|]. intros _.
  apply keeps_bind; [done|]. intros _.
  apply keeps_bind; [done|]. intros _.
  unfold check_tracker. destruct (trackerResponses env) as [err|responses].
  - apply keeps_ret.
  - apply keeps_bind; [|intros; apply keeps_ret].
    induction responses as [|r responses IH]; simpl.
    + apply keeps_ret.
    + apply keeps_bind; [apply Hsend|done].
Qed.

Ltac part :=
  let n := fresh "n" in
  let Hn := fresh "Hn" in
  intros n Hn; fields n;
  unfold request_headers, update_score, request_addresses, request_mempool,
    bind, send, inactive, handshake_done, sync_done in *;
  settle.

Lemma check_consistent env : keeps consistent (check env).
Proof. apply check_keeps; [intros r|..]; part. Qed.

Lemma check_inactive env : keeps inactive (check env).
Proof. apply check_keeps; [intros r|..]; part. Qed.

Lemma check_handshake_done env : keeps handshake_done (check env).
Proof. apply check_keeps; [intros r|..]; part. Qed.

Lemma check_sync_done env : keeps sync_done (check env).
Proof. apply check_keeps; [intros r|..]; part. Qed.

Ltac call :=
  let n := fresh "n" in
  let Hn := fresh "Hn" in
  intros n Hn; fields n;
  unfold Stop, BroadcastTx, locked, bind, Lock, close, disconnect, send, ret,
    inactive, handshake_done, sync_done in *;
  settle.

(** A step keeps what the three calls and the three outside events keep. *)
Lemma exec_keeps (P : UntrustedNode → Prop) s :
  (∀ env, keeps P (check env)) →
  keeps P Stop →
  (∀ tx, keeps P (BroadcastTx tx)) →
  (∀ pv n, P n → P (set_state (mark_VersionReceived pv) n)) →
  (∀ n, P n → P (set_state mark_Verified n)) →
  (∀ n, P n → P (receive n)) →
  keeps P (exec s).
Proof.
  intros Hcheck HStop HBroadcast Hversion Hverified Hreceive.
  destruct s as [env| |tx|pv| |]; simpl.
  - apply keeps_bind; [done|intros; apply keeps_ret].
  - apply keeps_bind; [done|intros; apply keeps_ret].
  - apply keeps_bind; [done|intros; apply keeps_ret].
  - intros n Hn. by apply Hversion.
  - intros n Hn. by apply Hverified.
  - intros n Hn. by apply Hreceive.
Qed.

Lemma run_keeps (P : UntrustedNode → Prop) steps :
  (∀ s, keeps P (exec s)) → keeps P (run steps).
Proof.
  intros Hexec. induction steps as [|s steps IH]; simpl.
  - apply keeps_ret.
  - apply keeps_bind; [apply Hexec|done].
Qed.

Lemma exec_consistent s : keeps consistent (exec s).
Proof.
  apply exec_keeps; [apply check_consistent|call|intros tx; call|..];
    intros; fields n; settle.
Qed.

Lemma exec_inactive s : keeps inactive (exec s).
Proof.
  apply exec_keeps; [apply check_inactive|call|intros tx; call|..];
    intros; fields n; unfold inactive in *; settle.
Qed.

Lemma exec_handshake_done s : keeps handshake_done (exec s).
Proof.
  apply exec_keeps; [apply check_handshake_done|call|intros tx; call|..];
    intros; fields n; unfold handshake_done in *; settle.
Qed.

Lemma exec_sync_done s : keeps sync_done (exec s).
Proof.
  apply exec_keeps; [apply check_sync_done|call|intros tx; call|..];
    intros; fields n; unfold sync_done in *; settle.
Qed.

Lemma NewUntrustedNode_consistent address :
  consistent (NewUntrustedNode address).
Proof. unfold consistent. simpl. repeat split; done. Qed.

(** Whatever the node has been through, it is consistent. *)
Lemma run_consistent address steps :
  consistent (final (run steps (NewUntrustedNode address))).
Proof.
  apply (run_keeps _ steps exec_consistent), NewUntrustedNode_consistent.
Qed.

(** *** What a call of [check] achieves *)

Lemma check_before_version env n :
  VersionReceived (state n) = false → check env n = Returns None n.
Proof. intros H. unfold check. by rewrite H. Qed.

Lemma send_state msg n n' :
  send msg n = Returns tt n' → state n' = state n.
Proof.
  unfold send. destruct (closed (outgoing n)); [done|].
  destruct (_ <? _)%nat; [|done]. by intros [= <-].
Qed.

Lemma send_all_state responses n n' :
  send_all responses n = Returns tt n' → state n' = state n.
Proof.
  revert n. induction responses as [|r responses IH]; intros n; simpl.
  - by intros [= <-].
  - unfold bind. destruct (send (Other r) n) as [[] n1| |] eqn:E; [|done..].
    intros H. apply IH in H. apply send_state in E. congruence.
Qed.

Lemma check_tracker_state env n r n' :
  check_tracker env n = Returns r n' → state n' = state n.
Proof.
  unfold check_tracker. destruct (trackerResponses env) as [err|responses].
  - by intros [= _ <-].
  - unfold bind. destruct (send_all responses n) as [[] n1| |] eqn:E; [|done..].
    intros [= _ <-]. by apply send_all_state in E.
Qed.

Ltac cases_in H :=
  repeat match type of H with
         | context [if negb ?b then _ else _] =>
             is_var b; destruct b; simpl in H
         | context [if ?b then _ else _] =>
             is_var b; destruct b; simpl in H
         | context [if ?b then _ else _] =>
             destruct b eqn:?; simpl in H
         | context [match ?x with inl _ => _ | inr _ => _ end] =>
             destruct x; simpl in H
         end.

(** A call of [check] that finds the version received and returns nil
    leaves the handshake marked complete; if it also finds the peer
    verified, it leaves the three later actions marked done. *)
Lemma check_nil_done env n n' :
  VersionReceived (state n) = true →
  check env n = Returns None n' →
  handshake_done n' ∧ (Verified (state n) = true → sync_done n').
Proof.
  intros Hv H. unfold handshake_done, sync_done. fields n. subst.
  unfold check, request_headers, update_score, request_addresses,
    request_mempool, bind, send in H. simpl in H.
  cases_in H; try discriminate H;
    try (injection H as <-; simpl; split; [done|]; intros; done);
    match type of H with
    | context [check_tracker ?e ?m] =>
        destruct (check_tracker e m) as [r s| |] eqn:E; [|done..];
        injection H as -> ->; apply check_tracker_state in E; rewrite E;
        simpl; done
    end.
Qed.

(** C9, as stated, fails for a peer that has sent its version and is not
    verified: three calls of [check] return nil, the header request is sent
    once, and the score update, the get-address request and the mempool
    request are not made at all. *)
Lemma check_unverified_no_sync :
  VersionReceived (state Scenario.node_version) = true ∧
  returned (times 3 (check Scenario.env1) Scenario.node_version)
    = Some [None; None; None] ∧
  history (final (times 3 (check Scenario.env1) Scenario.node_version))
    = [Sent (HeaderRequest 1)] ∧
  occurrences is_score_update
    (final (times 3 (check Scenario.env1) Scenario.node_version)) = 0%nat ∧
  occurrences is_get_addr
    (final (times 3 (check Scenario.env1) Scenario.node_version)) = 0%nat ∧
  occurrences is_mempool_request
    (final (times 3 (check Scenario.env1) Scenario.node_version)) = 0%nat.
Proof. repeat split; vm_compute; reflexivity. Qed.

(** C9, amended: in a node reached from [NewUntrustedNode] by any steps, a
    call of [check] made before the version is received returns nil and
    changes nothing; whatever follows, each of the header request, the +5
    score update, the get-address request and the mempool request has been
    made at most once; once a call of [check] made with the version received
    has returned nil, the header request has been made exactly once, with
    [HandshakeComplete] and the request time set; and if that call was made
    with [Verified] set as well, the score update, the get-address request
    and the mempool request have each been made exactly once, whatever
    follows. *)
Theorem check_one_shots address pre env n1 :
  run pre (NewUntrustedNode address) = Returns tt n1 →
  (VersionReceived (state n1) = false → check env n1 = Returns None n1) ∧
  (∀ post,
     (occurrences is_header_request
        (final (run post (final (check env n1)))) ≤ 1)%nat ∧
     (occurrences is_score_update
        (final (run post (final (check env n1)))) ≤ 1)%nat ∧
     (occurrences is_get_addr
        (final (run post (final (check env n1)))) ≤ 1)%nat ∧
     (occurrences is_mempool_request
        (final (run post (final (check env n1)))) ≤ 1)%nat) ∧
  (∀ n2 post,
     VersionReceived (state n1) = true →
     check env n1 = Returns None n2 →
     occurrences is_header_request (final (run post n2)) = 1%nat ∧
     HandshakeComplete (state (final (run post n2))) = true ∧
     is_Some (HeadersRequested (state (final (run post n2)))) ∧
     (Verified (state n1) = true →
      occurrences is_score_update (final (run post n2)) = 1%nat ∧
      occurrences is_get_addr (final (run post n2)) = 1%nat ∧
      occurrences is_mempool_request (final (run post n2)) = 1%nat)).
Proof.
  intros Hpre.
  assert (Hn1 : consistent n1).
  { pose proof (run_consistent address pre) as H. by rewrite Hpre in H. }
  split; [apply check_before_version|]. split.
  - intros post.
    assert (Hc : consistent (final (run post (final (check env n1))))).
    { apply (run_keeps _ post exec_consistent). by apply check_consistent. }
    destruct Hc as (_ & _ & -> & -> & -> & -> & _).
    repeat split; apply once_le_1.
  - intros n2 post Hv Hcheck.
    assert (Hn2 : consistent n2).
    { pose proof (check_consistent env n1 Hn1) as H. by rewrite Hcheck in H. }
    assert (Hc : consistent (final (run post n2)))
      by by apply (run_keeps _ post exec_consistent).
    destruct (check_nil_done env n1 n2 Hv Hcheck) as [Hh Hs].
    assert (Hh' : handshake_done (final (run post n2)))
      by by apply (run_keeps _ post exec_handshake_done).
    destruct Hc as (_ & _ & Hc1 & Hc2 & Hc3 & Hc4 & Hc5).
    unfold handshake_done in Hh'. rewrite Hc1, Hh'.
    split; [done|]. split; [done|]. split; [by apply Hc5|].
    intros Hverified.
    assert (Hs' : sync_done (final (run post n2)))
      by (apply (run_keeps _ post exec_sync_done); by apply Hs).
    destruct Hs' as (H1 & H2 & H3). by rewrite Hc2, Hc3, Hc4, H1, H2, H3.
Qed.

(** C9 amended, on a node whose peer has sent its version and has been
    verified, with two more calls of [check] after the first. *)
Lemma check_one_shots_witness :
  run [GotVersion 70015%N; GotVerified] (NewUntrustedNode "peer:8333")
    = Returns tt Scenario.node_verified ∧
  VersionReceived (state Scenario.node_verified) = true ∧
  Verified (state Scenario.node_verified) = true ∧
  ∃ n2, check Scenario.env1 Scenario.node_verified = Returns None n2 ∧
    let n := final (run [DoCheck Scenario.env1; DoCheck Scenario.env1] n2) in
    occurrences is_header_request n = 1%nat ∧
    occurrences is_score_update n = 1%nat ∧
    occurrences is_get_addr n = 1%nat ∧
    occurrences is_mempool_request n = 1%nat.
Proof.
  assert (Hpre : run [GotVersion 70015%N; GotVerified]
                   (NewUntrustedNode "peer:8333")
                 = Returns tt Scenario.node_verified) by reflexivity.
  split; [exact Hpre|]. split; [reflexivity|]. split; [reflexivity|].
  eexists. split; [vm_compute; reflexivity|].
  destruct (check_one_shots "peer:8333" [GotVersion 70015%N; GotVerified]
              Scenario.env1 Scenario.node_verified Hpre) as (_ & _ & Hdone).
  edestruct Hdone as (H1 & _ & _ & H2);
    [reflexivity|vm_compute; reflexivity|].
  destruct H2 as (H2 & H3 & H4); [reflexivity|].
  cbv zeta. split; [exact H1|]. split; [exact H2|]. split; [exact H3|exact H4].
Defined.

(** *** [Stop] and [BroadcastTx] *)

(** What holds of a node once [Stop] has returned. *)
Lemma Stop_returns n :
  mutex n = false →
  outgoingOpen n = negb (closed (outgoing n)) →
  ∃ n',
    Stop n = Returns None n' ∧
    mutex n' = false ∧ stopping n' = true ∧
    closed (outgoing n') = true ∧ outgoingOpen n' = false ∧
    occurrences is_close n'
      = (occurrences is_close n + once (outgoingOpen n))%nat.
Proof.
  intros Hm Hopen. fields n. subst.
  unfold Stop, locked, bind, Lock, close, disconnect. simpl.
  destruct closed0, conn0; simpl; eexists; (split; [reflexivity|]); simpl;
    unfold occurrences; simpl; rewrite ?filter_app, ?length_app; simpl;
    repeat split; lia.
Qed.

Lemma Stop_times k n :
  mutex n = false →
  outgoingOpen n = negb (closed (outgoing n)) →
  ∃ n',
    times (S k) Stop n = Returns (replicate (S k) None) n' ∧
    mutex n' = false ∧ stopping n' = true ∧
    closed (outgoing n') = true ∧ outgoingOpen n' = false ∧
    occurrences is_close n'
      = (occurrences is_close n + once (outgoingOpen n))%nat.
Proof.
  revert n. induction k as [|k IH]; intros n Hm Hopen.
  - destruct (Stop_returns n Hm Hopen) as (n' & HS & H).
    exists n'. split; [|exact H]. simpl. unfold bind, ret. by rewrite HS.
  - destruct (Stop_returns n Hm Hopen) as (n1 & HS & Hm1 & _ & Hc1 & Ho1 & Hn1).
    destruct (IH n1) as (n' & HT & Hm' & Hs' & Hc' & Ho' & Hn').
    { done. } { by rewrite Hc1, Ho1. }
    exists n'. split.
    + change (times (S (S k)) Stop n)
        with (bind Stop (fun a => bind (times (S k) Stop)
                                   (fun l => ret (a :: l))) n).
      unfold bind at 1. rewrite HS. unfold bind at 1. rewrite HT. reflexivity.
    + repeat split; try done. rewrite Hn', Hn1, Ho1. simpl. lia.
Qed.

(** C7: on a node whose outgoing channel is open and whose mutex is free,
    any number of calls of [Stop] in a row, one at least, all return nil:
    none panics and none is left waiting.  Afterwards the stopping flag is
    set, the channel is closed and known to be, and the channel has been
    closed exactly once more than before. *)
Theorem Stop_any_number_of_times k n :
  mutex n = false →
  outgoingOpen n = true →
  closed (outgoing n) = false →
  ∃ n',
    times (S k) Stop n = Returns (replicate (S k) None) n' ∧
    stopping n' = true ∧
    closed (outgoing n') = true ∧ outgoingOpen n' = false ∧
    occurrences is_close n' = S (occurrences is_close n).
Proof.
  intros Hm Ho Hc.
  destruct (Stop_times k n) as (n' & HT & _ & Hs & Hc' & Ho' & Hn');
    [done|by rewrite Ho, Hc|].
  exists n'. rewrite Ho in Hn'. simpl in Hn'.
  repeat split; try done. lia.
Qed.

(** C7, on a new node stopped twice: the channel is closed once. *)
Lemma Stop_any_number_of_times_witness :
  ∃ n',
    times 2 Stop (NewUntrustedNode "peer:8333") = Returns [None; None] n' ∧
    stopping n' = true ∧
    closed (outgoing n') = true ∧ outgoingOpen n' = false ∧
    occurrences is_close n' = 1%nat.
Proof.
  apply (Stop_any_number_of_times 1 (NewUntrustedNode "peer:8333"));
    reflexivity.
Defined.

Lemma Stop_inactive n e n' : Stop n = Returns e n' → inactive n'.
Proof.
  fields n. unfold Stop, locked, bind, Lock, close, disconnect, inactive.
  simpl. intros H. cases_in H; try discriminate H;
    injection H as <- <-; done.
Qed.

Lemma BroadcastTx_inactive tx n :
  inactive n → BroadcastTx tx n = Returns (Some "Node inactive"%string) n.
Proof.
  intros [Ho Hm]. fields n. subst. reflexivity.
Qed.

(** C8: once a call of [Stop] has returned, and whatever the node goes
    through afterwards, a call of [BroadcastTx] returns the error
    "Node inactive" and leaves the node as it found it: nothing is sent, and
    the call neither waits nor panics. *)
Theorem BroadcastTx_after_Stop n e n1 steps n2 tx :
  Stop n = Returns e n1 →
  run steps n1 = Returns tt n2 →
  BroadcastTx tx n2 = Returns (Some "Node inactive"%string) n2.
Proof.
  intros HStop Hrun. apply BroadcastTx_inactive.
  pose proof (run_keeps inactive steps exec_inactive n1) as H.
  rewrite Hrun in H. apply H. by eapply Stop_inactive.
Qed.

(** C8, on a new node that is stopped, then asked to stop and to broadcast
    again before the broadcast in question. *)
Lemma BroadcastTx_after_Stop_witness :
  ∃ n1 n2,
    Stop (NewUntrustedNode "peer:8333") = Returns None n1 ∧
    run [DoStop; DoBroadcastTx Scenario.txB] n1 = Returns tt n2 ∧
    BroadcastTx Scenario.txA n2 = Returns (Some "Node inactive"%string) n2.
Proof.
  eexists. eexists.
  split; [vm_compute; reflexivity|]. split; [vm_compute; reflexivity|].
  eapply (BroadcastTx_after_Stop (NewUntrustedNode "peer:8333") None _
            [DoStop; DoBroadcastTx Scenario.txB] _ Scenario.txA);
    vm_compute; reflexivity.
Defined.

End NodeSpec.

(** * More on the mempool *)

Module MemPoolLaws.
Import Data.
Import MemPoolSpec.

Section Laws.

Variable TxHash : MsgTx → Hash.
Variable OutpointHash : OutPoint → Hash.

Local Abbreviation AddTransaction := (AddTransaction TxHash OutpointHash).
Local Abbreviation RemoveTransaction := (RemoveTransaction OutpointHash).
Local Abbreviation Conflicting := (Conflicting OutpointHash).
Local Abbreviation add_outpoint := (add_outpoint OutpointHash).
Local Abbreviation remove_outpoint := (remove_outpoint OutpointHash).
Local Abbreviation conflicting_inputs := (conflicting_inputs OutpointHash).
Local Abbreviation spent := (spent OutpointHash).
Local Abbreviation reachable := (reachable TxHash OutpointHash).

(** [newMemPoolTx] keeps the outpoints of the inputs, in their order. *)
Lemma outpoints_fold (ins : list TxIn_t) :
  foldl (fun acc input => acc ++ [PreviousOutPoint input]) [] ins
  = PreviousOutPoint <$> ins.
Proof.
  assert (H : ∀ ins acc,
            foldl (fun acc input => acc ++ [PreviousOutPoint input]) acc ins
            = acc ++ (PreviousOutPoint <$> ins)).
  { clear ins. induction ins as [|i ins IH]; intros acc; simpl.
    - by rewrite app_nil_r.
    - rewrite IH. by rewrite <- app_assoc. }
  by rewrite H.
Qed.

Lemma newMemPoolTx_outPoints now tx :
  outPoints (newMemPoolTx now tx) = PreviousOutPoint <$> TxIn tx.
Proof. apply outpoints_fold. Qed.

(** The index after the loop of [AddTransaction], slice by slice. *)
Lemma add_outpoints_fresh hash result ops (ins : gmap Hash (list Hash)) o :
  ins !! o = None →
  o ∈ OutpointHash <$> ops →
  foldl (add_outpoint hash result) ins ops !! o = Some [hash].
Proof.
  revert ins. induction ops as [|p ops IH]; intros ins Hnone Hin; simpl.
  - by apply elem_of_nil in Hin.
  - destruct (decide (OutpointHash p = o)) as [<-|Hne].
    + apply add_outpoints_keep. unfold Data.add_outpoint.
      rewrite Hnone. apply lookup_insert_eq.
    + apply IH.
      * unfold Data.add_outpoint.
        destruct (ins !! OutpointHash p); [done|].
        by rewrite lookup_insert_ne.
      * simpl in Hin. apply elem_of_cons in Hin as [?|?]; [congruence|done].
Qed.

Lemma add_outpoints_other hash result ops (ins : gmap Hash (list Hash)) o :
  o ∉ OutpointHash <$> ops →
  foldl (add_outpoint hash result) ins ops !! o = ins !! o.
Proof.
  revert ins. induction ops as [|p ops IH]; intros ins Hnin; simpl; [done|].
  simpl in Hnin. apply not_elem_of_cons in Hnin as [Hne Hnin].
  rewrite IH by done. unfold Data.add_outpoint.
  destruct (ins !! OutpointHash p); [done|]. by rewrite lookup_insert_ne.
Qed.

(** The loop of [RemoveTransaction] on outpoints whose slices hold one hash
    at most: each of these slices is deleted, the others are left. *)
Lemma remove_outpoints_short ops (ins : gmap Hash (list Hash)) o :
  (∀ p lst, p ∈ ops → ins !! OutpointHash p = Some lst →
            (length lst ≤ 1)%nat) →
  foldl remove_outpoint ins ops !! o =
    if bool_decide (o ∈ OutpointHash <$> ops) then None else ins !! o.
Proof.
  revert ins. induction ops as [|p ops IH]; intros ins Hshort.
  - change (foldl remove_outpoint ins []) with ins. rewrite fmap_nil.
    case_bool_decide as H; [by apply elem_of_nil in H|done].
  - assert (Hp : remove_outpoint ins p = delete (OutpointHash p) ins).
    { unfold Data.remove_outpoint.
      destruct (ins !! OutpointHash p) as [lst|] eqn:E.
      - assert (length lst ≤ 1)%nat as Hl
          by (eapply Hshort; [apply elem_of_cons; by left|done]).
        destruct (1 <? length lst)%nat eqn:E1; [|done].
        apply Nat.ltb_lt in E1. lia.
      - symmetry. by apply delete_id. }
    change (foldl remove_outpoint ins (p :: ops))
      with (foldl remove_outpoint (remove_outpoint ins p) ops).
    rewrite Hp, IH.
    + rewrite fmap_cons.
      destruct (decide (o = OutpointHash p)) as [->|Hne].
      * rewrite lookup_delete_eq.
        rewrite (bool_decide_eq_true_2 (_ ∈ _ :: _))
          by (apply elem_of_cons; by left).
        by case_bool_decide.
      * rewrite lookup_delete_ne by done.
        case_bool_decide as H1; case_bool_decide as H2; try done.
        -- exfalso. apply H2. apply elem_of_cons. by right.
        -- exfalso. apply elem_of_cons in H2 as [?|?]; done.
    + intros q lst Hq Hl. apply lookup_delete_Some in Hl as [_ Hl].
      eapply Hshort; [apply elem_of_cons; by right|done].
Qed.

Lemma conflicting_inputs_clear ins result m :
  mutex m = true →
  Forall (fun input =>
            inputs m !! OutpointHash (PreviousOutPoint input) = None ∨
            inputs m !! OutpointHash (PreviousOutPoint input) = Some [])
         ins →
  conflicting_inputs ins result m = Returns result m.
Proof.
  intros Hm Hall. induction Hall as [|input ins [H|H] _ IH]; simpl.
  - done.
  - by rewrite H.
  - rewrite H. unfold bind. simpl. exact IH.
Qed.

(** X1: whatever [AddTransaction] answers, the transaction is tracked
    afterwards: [TransactionExists] returns true and [AddRequest] reports
    that it is already there, both without changing the mempool; after
    [RemoveTransaction], which returns true, [TransactionExists] returns
    false. *)
Theorem tracked_after_add_until_removed now now' tx m :
  mutex m = false →
  ∃ r m1,
    AddTransaction now tx m = Returns r m1 ∧
    TransactionExists (TxHash tx) m1 = Returns true m1 ∧
    AddRequest now' (TxHash tx) m1 = Returns (true, false) m1 ∧
    ∃ m2,
      RemoveTransaction (TxHash tx) m1 = Returns true m2 ∧
      TransactionExists (TxHash tx) m2 = Returns false m2.
Proof.
  intros Hm.
  assert (Hgen : ∀ m1 e, mutex m1 = false → txs m1 !! TxHash tx = Some e →
    TransactionExists (TxHash tx) m1 = Returns true m1 ∧
    AddRequest now' (TxHash tx) m1 = Returns (true, false) m1 ∧
    ∃ m2,
      RemoveTransaction (TxHash tx) m1 = Returns true m2 ∧
      TransactionExists (TxHash tx) m2 = Returns false m2).
  { intros m1 e Hm1 He. split; [|split].
    - rewrite TransactionExists_free by done.
      rewrite bool_decide_eq_true_2; [done|by eexists].
    - apply AddRequest_tracked; [done|by eexists].
    - eexists. split; [by apply (RemoveTransaction_tracked _ _ _ e)|].
      rewrite TransactionExists_free by done. simpl.
      rewrite lookup_delete_eq.
      rewrite bool_decide_eq_false_2; [done|]. by intros [? ?]. }
  destruct (txs m !! TxHash tx) as [e|] eqn:He.
  - exists ([], false), m. split; [apply AddTransaction_known; eauto|].
    by apply (Hgen m e).
  - eexists _, _. split; [by apply AddTransaction_new|].
    apply (Hgen _ (newMemPoolTx now tx)); [done|]. simpl.
    apply lookup_insert_eq.
Qed.

(** X2: [RemoveTransaction] of a hash that is not tracked returns false and
    changes nothing; so a second [RemoveTransaction] of any hash, right
    after the first, returns false and changes nothing. *)
Theorem RemoveTransaction_untracked hash m :
  mutex m = false →
  (txs m !! hash = None → RemoveTransaction hash m = Returns false m) ∧
  ∃ r m1,
    RemoveTransaction hash m = Returns r m1 ∧
    RemoveTransaction hash m1 = Returns false m1.
Proof.
  intros Hm. split; [by apply RemoveTransaction_absent|].
  destruct (txs m !! hash) as [e|] eqn:He.
  - eexists _, _. split; [by apply (RemoveTransaction_tracked _ _ _ e)|].
    apply RemoveTransaction_absent; [done|]. simpl. apply lookup_delete_eq.
  - exists false, m. split; by apply RemoveTransaction_absent.
Qed.

(** X4: when [AddTransaction] accepts a transaction, the index changes under
    the outpoints the transaction spends and nowhere else: an outpoint that
    had no slice gets the slice holding the hash of the transaction alone,
    and an outpoint that had a slice keeps that slice as it was. *)
Theorem AddTransaction_index now tx m :
  mutex m = false →
  txs m !! TxHash tx = None →
  ∃ m1,
    AddTransaction now tx m = Returns ([], true) m1 ∧
    ∀ o,
      inputs m1 !! o =
        match inputs m !! o with
        | Some lst => Some lst
        | None =>
            if bool_decide
                 (o ∈ OutpointHash <$> (PreviousOutPoint <$> TxIn tx))
            then Some [TxHash tx] else None
        end.
Proof.
  intros Hm Hnew. eexists. split; [by apply AddTransaction_new|].
  intros o. simpl. rewrite outpoints_fold.
  destruct (inputs m !! o) as [lst|] eqn:Ho.
  - by apply add_outpoints_keep.
  - case_bool_decide as Hin.
    + by apply add_outpoints_fresh.
    + rewrite add_outpoints_other by done. done.
Qed.

(** X3: adding a transaction that is not tracked and none of whose
    outpoints is indexed, then removing it, gives back the mempool as it
    was. *)
Theorem AddTransaction_RemoveTransaction_restores now tx m :
  mutex m = false →
  txs m !! TxHash tx = None →
  Forall (fun input =>
            inputs m !! OutpointHash (PreviousOutPoint input) = None)
         (TxIn tx) →
  ∃ m1,
    AddTransaction now tx m = Returns ([], true) m1 ∧
    RemoveTransaction (TxHash tx) m1 = Returns true m.
Proof.
  intros Hm Hnew Hfree. eexists. split; [by apply AddTransaction_new|].
  rewrite (RemoveTransaction_tracked _ _ _ (newMemPoolTx now tx));
    [|done|simpl; apply lookup_insert_eq].
  f_equal. destruct m as [t i r x]. simpl in *. unfold set_txs, set_inputs.
  simpl. f_equal.
  - by apply delete_insert_id.
  - rewrite outpoints_fold.
    set (ops := PreviousOutPoint <$> TxIn tx).
    assert (Hops : ∀ o, o ∈ OutpointHash <$> ops → i !! o = None).
    { intros o (p & -> & (input & -> & Hin)%list_elem_of_fmap)%list_elem_of_fmap.
      rewrite Forall_forall in Hfree. by apply Hfree. }
    apply map_eq. intros o. rewrite remove_outpoints_short.
    + case_bool_decide as Hin.
      * symmetry. by apply Hops.
      * by apply add_outpoints_other.
    + intros p lst Hp Hl.
      rewrite add_outpoints_fresh in Hl.
      * injection Hl as <-. simpl. lia.
      * apply Hops. apply list_elem_of_fmap. eauto.
      * apply list_elem_of_fmap. eauto.
Qed.

(** X5: between two calls, however many calls of whatever operations came
    before, the mutex is free, every hash the index lists under an outpoint
    is that of a tracked entry which spends the outpoint, and every slice of
    the index holds exactly one hash. *)
Theorem reachable_index_invariant m :
  reachable m →
  mutex m = false ∧
  index_sound OutpointHash m ∧
  ∀ o lst, inputs m !! o = Some lst → length lst = 1%nat.
Proof.
  intros Hr. destruct (reachable_index_sound TxHash OutpointHash m Hr)
    as [Hsound Hbc].
  split; [apply Hbc|]. split; [done|].
  intros o lst Ho. by eapply between_calls_single.
Qed.

(** X6: between two calls, [RemoveTransaction] of a tracked hash deletes
    its entry and no other, and deletes the slice of every outpoint the
    entry spends, whichever hash the slice holds; the other slices stay. *)
Theorem RemoveTransaction_index hash e m :
  reachable m →
  txs m !! hash = Some e →
  ∃ m',
    RemoveTransaction hash m = Returns true m' ∧
    txs m' = delete hash (txs m) ∧
    ∀ o, inputs m' !! o =
           if bool_decide (o ∈ spent e) then None else inputs m !! o.
Proof.
  intros Hr He.
  destruct (reachable_index_sound TxHash OutpointHash m Hr) as [_ Hbc].
  eexists. split; [apply (RemoveTransaction_tracked _ _ _ e); [apply Hbc|done]|].
  split; [done|]. intros o. simpl. apply remove_outpoints_short.
  intros p lst _ Hl. by rewrite (between_calls_single OutpointHash m _ lst Hbc Hl).
Qed.

(** X7: with the mutex free, [Conflicting] returns exactly when no input of
    the transaction has a hash listed under its outpoint, and it then returns
    the empty list and leaves the mempool as it was; as soon as one input
    has, the call parks holding the mutex, with nothing removed. *)
Theorem Conflicting_returns_or_parks tx m :
  mutex m = false →
  (Forall (fun input =>
             inputs m !! OutpointHash (PreviousOutPoint input) = None ∨
             inputs m !! OutpointHash (PreviousOutPoint input) = Some [])
          (TxIn tx) →
   Conflicting tx m = Returns [] m) ∧
  (Exists (fun input =>
             ∃ h lst, inputs m !! OutpointHash (PreviousOutPoint input)
                      = Some (h :: lst))
          (TxIn tx) →
   Conflicting tx m = Blocks (set_mutex true m)).
Proof.
  intros Hm. split.
  - intros Hall. unfold Data.Conflicting. rewrite locked_free by done.
    rewrite conflicting_inputs_clear; [by rewrite unlock_lock|done|done].
  - intros (input & Hin & h & lst & Hl)%Exists_exists.
    by eapply Conflicting_parks.
Qed.

(** X8: called with the mutex free, [AddRequest], [AddTransaction],
    [RemoveTransaction] and [TransactionExists] always return, and leave the
    mutex free. *)
Theorem calls_return_unlocked now txid tx hash m :
  mutex m = false →
  (∃ r m', AddRequest now txid m = Returns r m' ∧ mutex m' = false) ∧
  (∃ r m', AddTransaction now tx m = Returns r m' ∧ mutex m' = false) ∧
  (∃ r m', RemoveTransaction hash m = Returns r m' ∧ mutex m' = false) ∧
  (∃ r m', TransactionExists hash m = Returns r m' ∧ mutex m' = false).
Proof.
  intros Hm. repeat split.
  - destruct (txs m !! txid) as [e|] eqn:Ht.
    { eexists _, _. split; [apply AddRequest_tracked; eauto|done]. }
    destruct (requests m !! txid) as [t|] eqn:Hr.
    + destruct (decide (3 * Second < now - t)).
      * eexists _, _. split; [by eapply AddRequest_old|done].
      * eexists _, _. split; [eapply AddRequest_recent; [done..|lia]|done].
    + eexists _, _. split; [by apply AddRequest_first|done].
  - destruct (txs m !! TxHash tx) as [e|] eqn:Ht.
    + eexists _, _. split; [apply AddTransaction_known; eauto|done].
    + eexists _, _. split; [by apply AddTransaction_new|done].
  - destruct (txs m !! hash) as [e|] eqn:Ht.
    + eexists _, _. split; [by apply (RemoveTransaction_tracked _ _ _ e)|done].
    + eexists _, _. split; [by apply RemoveTransaction_absent|done].
  - eexists _, _. split; [by apply TransactionExists_free|done].
Qed.

End Laws.

(** X9: once [AddRequest] has granted a request for a hash at time [t1], a
    call for the same hash at time [t2] is refused, and changes nothing, as
    long as [t2] is at most three seconds after [t1]; it is granted, and
    records [t2], when [t2] is later than that. *)
Theorem AddRequest_throttle t1 t2 txid m m1 :
  mutex m = false →
  AddRequest t1 txid m = Returns (false, true) m1 →
  (t2 - t1 ≤ 3 * Second →
   AddRequest t2 txid m1 = Returns (false, false) m1) ∧
  (3 * Second < t2 - t1 →
   AddRequest t2 txid m1
     = Returns (false, true) (set_requests <[txid := t2]> m1)).
Proof.
  intros Hm H1.
  assert (Hm1 : m1 = set_requests <[txid := t1]> m ∧ txs m !! txid = None).
  { destruct (txs m !! txid) as [e|] eqn:Ht.
    { rewrite AddRequest_tracked in H1 by eauto. discriminate H1. }
    destruct (requests m !! txid) as [t|] eqn:Hr.
    - destruct (decide (3 * Second < t1 - t)).
      + rewrite (AddRequest_old _ _ _ t) in H1 by done. by injection H1 as <-.
      + rewrite (AddRequest_recent _ _ _ t) in H1 by (done || lia).
        discriminate H1.
    - rewrite AddRequest_first in H1 by done. by injection H1 as <-. }
  destruct Hm1 as [-> Ht].
  assert (Hr : requests (set_requests <[txid := t1]> m) !! txid = Some t1)
    by (simpl; apply lookup_insert_eq).
  split; intros Hd.
  - by apply (AddRequest_recent _ _ _ t1).
  - by apply (AddRequest_old _ _ _ t1).
Qed.

(** *** The laws on the transactions [txA] and [txB] *)

(** X1, on the empty mempool and [txA]. *)
Lemma tracked_after_add_until_removed_witness :
  mutex NewMemPool = false ∧
  ∃ r m1,
    Scenario.AddTransaction 10 Scenario.txA NewMemPool = Returns r m1 ∧
    TransactionExists (Scenario.TxHash Scenario.txA) m1 = Returns true m1 ∧
    AddRequest 12 (Scenario.TxHash Scenario.txA) m1
      = Returns (true, false) m1 ∧
    ∃ m2,
      Scenario.RemoveTransaction (Scenario.TxHash Scenario.txA) m1
        = Returns true m2 ∧
      TransactionExists (Scenario.TxHash Scenario.txA) m2 = Returns false m2.
Proof.
  split; [reflexivity|].
  apply (tracked_after_add_until_removed Scenario.TxHash Scenario.OutpointHash
           10 12 Scenario.txA NewMemPool).
  reflexivity.
Defined.

(** X2, on the mempool that tracks [txA] alone: [txB] is not tracked, and
    [txA] can be removed once. *)
Lemma RemoveTransaction_untracked_witness :
  Scenario.RemoveTransaction (Scenario.TxHash Scenario.txB) Scenario.pool_A
    = Returns false Scenario.pool_A ∧
  ∃ r m1,
    Scenario.RemoveTransaction (Scenario.TxHash Scenario.txA) Scenario.pool_A
      = Returns r m1 ∧
    Scenario.RemoveTransaction (Scenario.TxHash Scenario.txA) m1
      = Returns false m1.
Proof.
  split.
  - apply (RemoveTransaction_untracked Scenario.OutpointHash
             (Scenario.TxHash Scenario.txB) Scenario.pool_A);
      [reflexivity|vm_compute; reflexivity].
  - apply (RemoveTransaction_untracked Scenario.OutpointHash
             (Scenario.TxHash Scenario.txA) Scenario.pool_A).
    reflexivity.
Defined.

(** X3, on the empty mempool and [txA]. *)
Lemma AddTransaction_RemoveTransaction_restores_witness :
  ∃ m1,
    Scenario.AddTransaction 10 Scenario.txA NewMemPool
      = Returns ([], true) m1 ∧
    Scenario.RemoveTransaction (Scenario.TxHash Scenario.txA) m1
      = Returns true NewMemPool.
Proof.
  apply (AddTransaction_RemoveTransaction_restores
           Scenario.TxHash Scenario.OutpointHash 10 Scenario.txA NewMemPool).
  - reflexivity.
  - reflexivity.
  - repeat constructor.
Defined.

(** X4, on the mempool that tracks [txA] and the transaction [txB], which
    spends the same outpoint. *)
Lemma AddTransaction_index_witness :
  ∃ m1,
    Scenario.AddTransaction 11 Scenario.txB Scenario.pool_A
      = Returns ([], true) m1 ∧
    ∀ o,
      inputs m1 !! o =
        match inputs Scenario.pool_A !! o with
        | Some lst => Some lst
        | None =>
            if bool_decide
                 (o ∈ Scenario.OutpointHash <$>
                        (PreviousOutPoint <$> TxIn Scenario.txB))
            then Some [Scenario.TxHash Scenario.txB] else None
        end.
Proof.
  apply (AddTransaction_index Scenario.TxHash Scenario.OutpointHash
           11 Scenario.txB Scenario.pool_A);
    vm_compute; reflexivity.
Defined.

Lemma pool_AB_reachable :
  reachable Scenario.TxHash Scenario.OutpointHash Scenario.pool_AB.
Proof.
  exists [CallAddTransaction 10 Scenario.txA;
          CallAddTransaction 11 Scenario.txB].
  vm_compute. reflexivity.
Defined.

(** X5, on the mempool that tracks [txA] and [txB]. *)
Lemma reachable_index_invariant_witness :
  mutex Scenario.pool_AB = false ∧
  index_sound Scenario.OutpointHash Scenario.pool_AB ∧
  ∀ o lst, inputs Scenario.pool_AB !! o = Some lst → length lst = 1%nat.
Proof.
  apply (reachable_index_invariant Scenario.TxHash Scenario.OutpointHash
           Scenario.pool_AB pool_AB_reachable).
Defined.

(** X6, on the mempool that tracks [txA] and [txB], removing [txB]. *)
Lemma RemoveTransaction_index_witness :
  ∃ m',
    Scenario.RemoveTransaction (Scenario.TxHash Scenario.txB) Scenario.pool_AB
      = Returns true m' ∧
    txs m' = delete (Scenario.TxHash Scenario.txB) (txs Scenario.pool_AB) ∧
    ∀ o, inputs m' !! o =
           if bool_decide
                (o ∈ spent Scenario.OutpointHash
                       {| time := 11; outPoints := [Scenario.O1] |})
           then None else inputs Scenario.pool_AB !! o.
Proof.
  apply (RemoveTransaction_index Scenario.TxHash Scenario.OutpointHash
           (Scenario.TxHash Scenario.txB)
           {| time := 11; outPoints := [Scenario.O1] |}
           Scenario.pool_AB pool_AB_reachable).
  vm_compute. reflexivity.
Defined.

(** X7, for [txB]: on the empty mempool the call returns, on the mempool
    that tracks [txA] it parks. *)
Lemma Conflicting_returns_or_parks_witness :
  Scenario.Conflicting Scenario.txB NewMemPool = Returns [] NewMemPool ∧
  Scenario.Conflicting Scenario.txB Scenario.pool_A
    = Blocks (set_mutex true Scenario.pool_A).
Proof.
  split.
  - apply (Conflicting_returns_or_parks Scenario.OutpointHash
             Scenario.txB NewMemPool); [reflexivity|].
    repeat constructor.
  - apply (Conflicting_returns_or_parks Scenario.OutpointHash
             Scenario.txB Scenario.pool_A); [reflexivity|].
    apply Exists_cons_hd. exists (Scenario.TxHash Scenario.txA), [].
    vm_compute. reflexivity.
Defined.

(** X8, on the mempool that tracks [txA]. *)
Lemma calls_return_unlocked_witness :
  (∃ r m', AddRequest 20 5%N Scenario.pool_A = Returns r m' ∧
           mutex m' = false) ∧
  (∃ r m', Scenario.AddTransaction 20 Scenario.txB Scenario.pool_A
           = Returns r m' ∧ mutex m' = false) ∧
  (∃ r m', Scenario.RemoveTransaction 5%N Scenario.pool_A = Returns r m' ∧
           mutex m' = false) ∧
  (∃ r m', TransactionExists 5%N Scenario.pool_A = Returns r m' ∧
           mutex m' = false).
Proof.
  apply (calls_return_unlocked Scenario.TxHash Scenario.OutpointHash
           20 5%N Scenario.txB 5%N Scenario.pool_A).
  reflexivity.
Defined.

(** X9, after the request for hash 5 granted at time 0: refused at three
    seconds, granted one nanosecond later. *)
Lemma AddRequest_throttle_witness :
  AddRequest (3 * Second) 5 Scenario.pool_req
    = Returns (false, false) Scenario.pool_req ∧
  AddRequest (3 * Second + 1) 5 Scenario.pool_req
    = Returns (false, true)
        (set_requests <[5%N := 3 * Second + 1]> Scenario.pool_req).
Proof.
  split.
  - apply (AddRequest_throttle 0 (3 * Second) 5%N NewMemPool
             Scenario.pool_req); [reflexivity|reflexivity|].
    vm_compute. intros H. discriminate H.
  - apply (AddRequest_throttle 0 (3 * Second + 1) 5%N NewMemPool
             Scenario.pool_req); [reflexivity|reflexivity|].
    vm_compute. reflexivity.
Defined.

End MemPoolLaws.

(** * More on the untrusted node *)

Module NodeLaws.
Import Spynode.
Import NodeSpec.

(** A send on an open channel with room queues the message and records it. *)
Lemma send_room msg n :
  closed (outgoing n) = false →
  (length (buffer (outgoing n)) < capacity)%nat →
  send msg n =
    Returns tt
      (record (Sent msg)
         (set_outgoing {| buffer := buffer (outgoing n) ++ [msg];
                          closed := false |} n)).
Proof.
  intros Hc Hroom. unfold send. rewrite Hc.
  apply Nat.ltb_lt in Hroom. by rewrite Hroom.
Qed.

Lemma extend_nothing n : extend [] [] (fun s => s) n = n.
Proof.
  destruct n as [? ? ? [? ?] ? ? ? ? ?]. unfold extend. simpl.
  by rewrite !app_nil_r.
Qed.

Lemma extend_extend m1 e1 f1 m2 e2 f2 n :
  extend m2 e2 f2 (extend m1 e1 f1 n)
  = extend (m1 ++ m2) (e1 ++ e2) (fun s => f2 (f1 s)) n.
Proof. unfold extend. simpl. by rewrite !app_assoc. Qed.

Lemma send_extend msg n :
  closed (outgoing n) = false →
  (length (buffer (outgoing n)) < capacity)%nat →
  send msg n = Returns tt (extend [msg] [Sent msg] (fun s => s) n).
Proof.
  intros Hc Hroom. rewrite send_room by done. f_equal.
  destruct n as [? ? ? [? ?] ? ? ? ? ?]. simpl in *. by subst.
Qed.

Lemma send_all_extend responses n :
  closed (outgoing n) = false →
  (length (buffer (outgoing n)) + length responses ≤ capacity)%nat →
  send_all responses n =
    Returns tt
      (extend (Other <$> responses) (Sent <$> (Other <$> responses))
         (fun s => s) n).
Proof.
  revert n. induction responses as [|r responses IH]; intros n Hc Hroom.
  - simpl. by rewrite extend_nothing.
  - simpl in Hroom. simpl. unfold bind.
    rewrite send_extend by (done || lia). rewrite IH.
    + by rewrite extend_extend.
    + done.
    + simpl. rewrite length_app. simpl. lia.
Qed.

Lemma request_headers_extend env n msg :
  HandshakeComplete (state n) = false →
  headerRequest env = inr msg →
  closed (outgoing n) = false →
  (length (buffer (outgoing n)) < capacity)%nat →
  request_headers env n =
    Returns None
      (extend [HeaderRequest msg] [Sent (HeaderRequest msg)]
         (mark_handshake (now env)) n).
Proof.
  intros Hh Hhdr Hc Hroom. unfold request_headers, bind.
  rewrite Hh, Hhdr. simpl. by rewrite send_extend.
Qed.

Lemma update_score_extend n :
  ScoreUpdated (state n) = false →
  update_score n =
    Returns tt (extend [] [Scored (address n) 5] mark_ScoreUpdated n).
Proof.
  intros Hs. unfold update_score. rewrite Hs. simpl. f_equal.
  destruct n as [? ? ? [? ?] ? ? ? ? ?]. unfold extend. simpl.
  by rewrite app_nil_r.
Qed.

Lemma request_addresses_extend n :
  AddressesRequested (state n) = false →
  closed (outgoing n) = false →
  (length (buffer (outgoing n)) < capacity)%nat →
  request_addresses n =
    Returns tt (extend [GetAddr] [Sent GetAddr] mark_AddressesRequested n).
Proof.
  intros Ha Hc Hroom. unfold request_addresses, bind.
  rewrite Ha. simpl. by rewrite send_extend.
Qed.

Lemma request_mempool_extend n :
  MemPoolRequested (state n) = false →
  closed (outgoing n) = false →
  (length (buffer (outgoing n)) < capacity)%nat →
  request_mempool n =
    Returns tt
      (extend [MemPoolRequest] [Sent MemPoolRequest] mark_MemPoolRequested n).
Proof.
  intros Hm Hc Hroom. unfold request_mempool, bind.
  rewrite Hm. simpl. by rewrite send_extend.
Qed.

(** X10: the first call of [check] on a verified peer, with room on the
    channel for all it sends, returns nil having queued the header request,
    the get-address request, the mempool request and the responses of the
    tracker, in this order, behind what was queued; it has recorded the
    score update of +5 after sending the header request, has set the four
    marks and the time of the header request, and has changed nothing
    else. *)
Theorem check_first_verified env n msg responses :
  VersionReceived (state n) = true →
  Verified (state n) = true →
  HandshakeComplete (state n) = false →
  ScoreUpdated (state n) = false →
  AddressesRequested (state n) = false →
  MemPoolRequested (state n) = false →
  headerRequest env = inr msg →
  trackerResponses env = inr responses →
  closed (outgoing n) = false →
  (length (buffer (outgoing n)) + 3 + length responses ≤ capacity)%nat →
  check env n =
    Returns None
      (extend
         ([HeaderRequest msg; GetAddr; MemPoolRequest]
            ++ (Other <$> responses))
         ([Sent (HeaderRequest msg); Scored (address n) 5; Sent GetAddr;
           Sent MemPoolRequest] ++ (Sent <$> (Other <$> responses)))
         (fun s =>
            mark_MemPoolRequested
              (mark_AddressesRequested
                 (mark_ScoreUpdated (mark_handshake (now env) s))))
         n).
Proof.
  intros Hv Hver Hh Hs Ha Hm Hhdr Htrk Hc Hroom.
  unfold check. rewrite Hv. cbn [negb]. unfold bind at 1.
  rewrite (request_headers_extend env n msg) by (done || lia).
  cbn [state extend mark_handshake Verified]. rewrite Hver. cbn [negb].
  unfold bind at 1. rewrite update_score_extend by done.
  unfold bind at 1. rewrite request_addresses_extend;
    [|done|done|simpl; rewrite !length_app; simpl; lia].
  unfold bind at 1. rewrite request_mempool_extend;
    [|done|done|simpl; rewrite !length_app; simpl; lia].
  unfold check_tracker. rewrite Htrk. unfold bind, ret.
  rewrite send_all_extend;
    [|done|simpl; rewrite !length_app; simpl; lia].
  rewrite !extend_extend. reflexivity.
Qed.

(** X11: the errors of its collaborators are what [check] returns.  When
    the header request cannot be built, [check] returns that error and the
    node is as before, so the next call tries again.  When the tracker
    fails on the first call for a verified peer, [check] returns that error
    with the three requests queued and the four marks set: the one-shot
    actions are done and are not done again. *)
Theorem check_errors env n err :
  VersionReceived (state n) = true →
  HandshakeComplete (state n) = false →
  (headerRequest env = inl err → check env n = Returns (Some err) n) ∧
  (∀ msg,
     headerRequest env = inr msg →
     trackerResponses env = inl err →
     Verified (state n) = true →
     ScoreUpdated (state n) = false →
     AddressesRequested (state n) = false →
     MemPoolRequested (state n) = false →
     closed (outgoing n) = false →
     (length (buffer (outgoing n)) + 3 ≤ capacity)%nat →
     check env n =
       Returns (Some err)
         (extend [HeaderRequest msg; GetAddr; MemPoolRequest]
            [Sent (HeaderRequest msg); Scored (address n) 5; Sent GetAddr;
             Sent MemPoolRequest]
            (fun s =>
               mark_MemPoolRequested
                 (mark_AddressesRequested
                    (mark_ScoreUpdated (mark_handshake (now env) s))))
            n)).
Proof.
  intros Hv Hh. split.
  - intros Hhdr. unfold check, bind, request_headers.
    rewrite Hv, Hh, Hhdr. reflexivity.
  - intros msg Hhdr Htrk Hver Hs Ha Hm Hc Hroom.
    unfold check. rewrite Hv. cbn [negb]. unfold bind at 1.
    rewrite (request_headers_extend env n msg) by (done || lia).
    cbn [state extend mark_handshake Verified]. rewrite Hver. cbn [negb].
    unfold bind at 1. rewrite update_score_extend by done.
    unfold bind at 1. rewrite request_addresses_extend;
      [|done|done|simpl; rewrite !length_app; simpl; lia].
    unfold bind at 1. rewrite request_mempool_extend;
      [|done|done|simpl; rewrite !length_app; simpl; lia].
    unfold check_tracker. rewrite Htrk. unfold ret.
    rewrite !extend_extend. reflexivity.
Qed.

(** X12: once the four marks are set, a call of [check] on a verified peer
    does nothing but pass on the tracker: it returns the tracker's error
    with the node as before, or, with room on the channel, queues the
    tracker's responses in their order and returns nil. *)
Theorem check_steady_state env n :
  VersionReceived (state n) = true →
  Verified (state n) = true →
  HandshakeComplete (state n) = true →
  ScoreUpdated (state n) = true →
  AddressesRequested (state n) = true →
  MemPoolRequested (state n) = true →
  (∀ err, trackerResponses env = inl err →
          check env n = Returns (Some err) n) ∧
  (∀ responses,
     trackerResponses env = inr responses →
     closed (outgoing n) = false →
     (length (buffer (outgoing n)) + length responses ≤ capacity)%nat →
     check env n =
       Returns None
         (extend (Other <$> responses) (Sent <$> (Other <$> responses))
            (fun s => s) n)).
Proof.
  intros Hv Hver Hh Hs Ha Hm.
  assert (Hcheck : check env n = check_tracker env n).
  { unfold check, bind, request_headers, update_score, request_addresses,
      request_mempool.
    rewrite Hv, Hh. simpl. rewrite Hver, Hs. simpl. rewrite Ha. simpl.
    by rewrite Hm. }
  rewrite Hcheck. unfold check_tracker. split.
  - by intros err ->.
  - intros responses -> Hc Hroom. unfold bind, ret.
    by rewrite send_all_extend.
Qed.

(** X13: [check] does not look at [outgoingOpen].  On a node that is
    stopped while its header request is still to be sent, [Stop] returns
    and the next call of [check] panics on the closed channel. *)
Theorem check_after_Stop_panics env n msg :
  mutex n = false →
  outgoingOpen n = negb (closed (outgoing n)) →
  VersionReceived (state n) = true →
  HandshakeComplete (state n) = false →
  headerRequest env = inr msg →
  ∃ n1, Stop n = Returns None n1 ∧ check env n1 = Panics n1.
Proof.
  intros Hm Ho Hv Hh Hhdr. fields n. subst.
  unfold Stop, locked, bind, Lock, close, disconnect. simpl.
  destruct closed0, conn0; simpl; eexists; (split; [reflexivity|]);
    unfold check, bind, request_headers, send; simpl; by rewrite Hhdr.
Qed.

(** X14: [Stop] closes the connection if there is one, and only then; it
    leaves the connection state and the queued messages as they are; and a
    second [Stop] right after returns nil and changes nothing at all. *)
Theorem Stop_closes_connection n :
  mutex n = false →
  outgoingOpen n = negb (closed (outgoing n)) →
  ∃ n',
    Stop n = Returns None n' ∧
    conn n' = None ∧
    occurrences is_conn_close n'
      = (occurrences is_conn_close n
         + match conn n with Some _ => 1 | None => 0 end)%nat ∧
    state n' = state n ∧
    buffer (outgoing n') = buffer (outgoing n) ∧
    Stop n' = Returns None n'.
Proof.
  intros Hm Ho. fields n. subst.
  unfold Stop, locked, bind, Lock, close, disconnect. simpl.
  destruct closed0, conn0; simpl; eexists; (split; [reflexivity|]); simpl;
    unfold occurrences; simpl; rewrite ?filter_app, ?length_app; simpl;
    repeat split; lia.
Qed.

(** X15: on a node whose channel is open with room and whose mutex is free,
    [BroadcastTx] returns nil, having queued the transaction behind what
    was queued and changed nothing else. *)
Theorem BroadcastTx_queues tx n :
  mutex n = false →
  outgoingOpen n = true →
  closed (outgoing n) = false →
  (length (buffer (outgoing n)) < capacity)%nat →
  BroadcastTx tx n =
    Returns None (extend [Tx tx] [Sent (Tx tx)] (fun s => s) n).
Proof.
  intros Hm Ho Hc Hroom. unfold BroadcastTx, locked, bind, Lock, ret.
  rewrite Hm. simpl. rewrite Ho. simpl.
  rewrite send_extend by done. f_equal.
  destruct n as [? ? ? [? ?] ? ? ? ? ?]. simpl in *. by subst.
Qed.

(** *** Every state the node reaches *)

Lemma check_unlocked env : keeps (fun n => mutex n = false) (check env).
Proof. apply check_keeps; [intros r|..]; part. Qed.

Lemma BroadcastTx_unlocked tx n e n' :
  BroadcastTx tx n = Returns e n' → mutex n' = false.
Proof.
  fields n. unfold BroadcastTx, locked, bind, Lock, send, ret. simpl.
  intros H. cases_in H; try discriminate H; by injection H as <- <-.
Qed.

Lemma exec_returns_unlocked s n n' :
  mutex n = false → exec s n = Returns tt n' → mutex n' = false.
Proof.
  intros Hm. destruct s as [env| |tx|pv| |]; simpl; unfold bind, ret.
  - pose proof (check_unlocked env n Hm) as H.
    destruct (check env n) as [r n1| |]; [|done..]. by intros [= <-].
  - destruct (Stop n) as [r n1| |] eqn:E; [|done..].
    intros [= <-]. by apply Stop_inactive in E as [_ ?].
  - destruct (BroadcastTx tx n) as [r n1| |] eqn:E; [|done..].
    intros [= <-]. by apply BroadcastTx_unlocked in E.
  - by intros [= <-].
  - by intros [= <-].
  - by intros [= <-].
Qed.

Lemma run_returns_unlocked steps n n' :
  mutex n = false → run steps n = Returns tt n' → mutex n' = false.
Proof.
  revert n. induction steps as [|s steps IH]; intros n Hm; simpl.
  - by intros [= <-].
  - unfold bind. destruct (exec s n) as [[] n1| |] eqn:E; [|done..].
    apply IH. by eapply exec_returns_unlocked.
Qed.

(** X16: whatever a new node has been through (calls of [check], of [Stop]
    and of [BroadcastTx], version and verification signals, messages
    written out), as long as these have returned: [outgoingOpen] tells
    whether the channel is open, the mutex is free, and a call of [Stop]
    returns nil, after which the channel is closed and has been closed
    exactly once since the node was made. *)
Theorem Stop_from_any_state address steps n :
  run steps (NewUntrustedNode address) = Returns tt n →
  outgoingOpen n = negb (closed (outgoing n)) ∧
  mutex n = false ∧
  ∃ n',
    Stop n = Returns None n' ∧
    closed (outgoing n') = true ∧
    occurrences is_close n' = 1%nat.
Proof.
  intros Hrun.
  assert (Hc : consistent n).
  { pose proof (run_consistent address steps) as H. by rewrite Hrun in H. }
  assert (Hm : mutex n = false)
    by (eapply run_returns_unlocked; [|exact Hrun]; done).
  destruct Hc as (Ho & Hcl & _).
  split; [done|]. split; [done|].
  destruct (Stop_returns n Hm Ho) as (n' & HS & _ & _ & Hc' & _ & Hn').
  exists n'. split; [done|]. split; [done|].
  rewrite Hn', Hcl, Ho. destruct (closed (outgoing n)); reflexivity.
Qed.

(** X17: [connect] always returns.  It first closes the connection the
    node has, if it has one; when the dial fails it returns the error of the
    dial and the node has no connection; when the dial succeeds it returns
    nil, the node has the new connection and the time of connection is
    set. *)
Theorem connect_replaces_connection dial t n :
  ∃ n',
    connect dial t n
      = Returns (match dial with inl err => Some err | inr _ => None end) n' ∧
    conn n' = match dial with inl _ => None | inr c => Some c end ∧
    occurrences is_conn_close n'
      = (occurrences is_conn_close n
         + match conn n with Some _ => 1 | None => 0 end)%nat ∧
    state n' = match dial with
               | inl _ => state n
               | inr _ => mark_connected t (state n)
               end ∧
    outgoing n' = outgoing n.
Proof.
  fields n. unfold connect, bind, disconnect, ret. simpl.
  destruct conn0, dial; simpl; eexists; (split; [reflexivity|]); simpl;
    unfold occurrences; simpl; rewrite ?filter_app, ?length_app; simpl;
    repeat split; lia.
Qed.

(** *** The monitoring loops *)

Lemma Stop_stopped n e n' : Stop n = Returns e n' → stopped n'.
Proof.
  fields n. unfold Stop, locked, bind, Lock, close, disconnect, stopped.
  simpl. intros H. cases_in H; try discriminate H;
    injection H as <- <-; done.
Qed.

Lemma Stop_then_break n n' :
  bind Stop (fun _ => ret false) n = Returns false n' → stopped n'.
Proof.
  unfold bind, ret. destruct (Stop n) as [e n1| |] eqn:E; [|done..].
  intros [= <-]. by eapply Stop_stopped.
Qed.







Lemma exec_stopping s : keeps (fun n => stopping n = true) (exec s).
Proof.
  apply exec_keeps;
    [intros env; apply check_keeps; [intros r|..]; part
    |call|intros tx; call|..];
    intros; fields n; settle.
Qed.

Lemma timeouts_turn_break t n n' :
  timeouts_turn t n = Returns false n' → stopping n' = true.
Proof.
  unfold timeouts_turn. unfold bind at 1.
  destruct (run (asleep t) n) as [[] n1| |]; [|done..].
  destruct (timeout t) as [err|].
  - unfold bind at 1, penalise. intros H.
    apply Stop_then_break in H. apply H.
  - destruct (stopping n1) eqn:E; [|done]. by intros [= <-].
Qed.

(** X20: when [monitorRequestTimeouts] leaves its loop the stopping flag is
    set; and once the flag is set, the first turn that gets as far as its
    tests leaves the loop. *)
Theorem monitorRequestTimeouts_ends_stopping ticks n :
  (∀ n', monitorRequestTimeouts ticks n = Returns false n' →
         stopping n' = true) ∧
  (stopping n = true →
   ∀ t go n', timeouts_turn t n = Returns go n' → go = false).
Proof.
  split.
  - revert n. induction ticks as [|t ticks IH]; intros n n'; simpl; [done|].
    unfold bind.
    destruct (timeouts_turn t n) as [[|] n1| |] eqn:E; [|idtac|done..].
    + apply IH.
    + intros [= <-]. by eapply timeouts_turn_break.
  - intros Hs t go n'. unfold timeouts_turn. unfold bind at 1.
    pose proof (run_keeps _ (asleep t) exec_stopping n Hs) as Hrun.
    destruct (run (asleep t) n) as [[] n1| |]; [|done..]. simpl in Hrun.
    destruct (timeout t) as [err|].
    + unfold bind, penalise, ret.
      destruct (Stop _) as [e n2| |]; [|done..]. by intros [= <- _].
    + rewrite Hrun. by intros [= <- _].
Qed.

(** *** The laws on concrete nodes *)

(** X10, on the verified node with two responses of the tracker. *)
Lemma check_first_verified_witness :
  check Scenario.env2 Scenario.node_verified =
    Returns None
      (extend
         ([HeaderRequest 1; GetAddr; MemPoolRequest] ++ (Other <$> [7%N; 8%N]))
         ([Sent (HeaderRequest 1); Scored "peer:8333" 5; Sent GetAddr;
           Sent MemPoolRequest] ++ (Sent <$> (Other <$> [7%N; 8%N])))
         (fun s =>
            mark_MemPoolRequested
              (mark_AddressesRequested
                 (mark_ScoreUpdated (mark_handshake 100 s))))
         Scenario.node_verified).
Proof.
  apply (check_first_verified Scenario.env2 Scenario.node_verified 1%N
           [7%N; 8%N]); try reflexivity.
  unfold capacity. simpl. lia.
Defined.

(** X11, on the node that has the version only, and on the verified node. *)
Lemma check_errors_witness :
  check Scenario.env_no_header Scenario.node_version
    = Returns (Some "no headers"%string) Scenario.node_version ∧
  check Scenario.env_no_tracker Scenario.node_verified =
    Returns (Some "tracker failed"%string)
      (extend [HeaderRequest 1; GetAddr; MemPoolRequest]
         [Sent (HeaderRequest 1); Scored "peer:8333" 5; Sent GetAddr;
          Sent MemPoolRequest]
         (fun s =>
            mark_MemPoolRequested
              (mark_AddressesRequested
                 (mark_ScoreUpdated (mark_handshake 100 s))))
         Scenario.node_verified).
Proof.
  split.
  - apply (check_errors Scenario.env_no_header Scenario.node_version
             "no headers"%string); reflexivity.
  - apply (check_errors Scenario.env_no_tracker Scenario.node_verified
             "tracker failed"%string) with (msg := 1%N); try reflexivity.
    unfold capacity. simpl. lia.
Defined.

(** X12, on the verified node after its first [check]. *)
Lemma check_steady_state_witness :
  check Scenario.env_no_tracker Scenario.node_synced
    = Returns (Some "tracker failed"%string) Scenario.node_synced ∧
  check Scenario.env2 Scenario.node_synced =
    Returns None
      (extend (Other <$> [7%N; 8%N]) (Sent <$> (Other <$> [7%N; 8%N]))
         (fun s => s) Scenario.node_synced).
Proof.
  split.
  - apply (check_steady_state Scenario.env_no_tracker Scenario.node_synced);
      reflexivity.
  - apply (check_steady_state Scenario.env2 Scenario.node_synced);
      try reflexivity.
    unfold capacity. simpl. lia.
Defined.

(** X13, on the node that has the version and has not sent its header
    request. *)
Lemma check_after_Stop_panics_witness :
  ∃ n1, Stop Scenario.node_version = Returns None n1 ∧
        check Scenario.env1 n1 = Panics n1.
Proof.
  apply (check_after_Stop_panics Scenario.env1 Scenario.node_version 1%N);
    reflexivity.
Defined.

(** X14, on a node that has connected. *)
Lemma Stop_closes_connection_witness :
  ∃ n',
    Stop Scenario.node_connected = Returns None n' ∧
    conn n' = None ∧
    occurrences is_conn_close n'
      = (occurrences is_conn_close Scenario.node_connected
         + match conn Scenario.node_connected with
           | Some _ => 1 | None => 0
           end)%nat ∧
    state n' = state Scenario.node_connected ∧
    buffer (outgoing n') = buffer (outgoing Scenario.node_connected) ∧
    Stop n' = Returns None n'.
Proof.
  apply (Stop_closes_connection Scenario.node_connected); reflexivity.
Defined.

(** X15, on a new node. *)
Lemma BroadcastTx_queues_witness :
  BroadcastTx Scenario.txA (NewUntrustedNode "peer:8333") =
    Returns None
      (extend [Tx Scenario.txA] [Sent (Tx Scenario.txA)] (fun s => s)
         (NewUntrustedNode "peer:8333")).
Proof.
  apply (BroadcastTx_queues Scenario.txA (NewUntrustedNode "peer:8333"));
    try reflexivity.
  unfold capacity. simpl. lia.
Defined.

(** X16, on a node that has received the version, run [check], queued a
    transaction and been stopped once already. *)
Lemma Stop_from_any_state_witness :
  ∃ n,
    run [GotVersion 70015%N; DoCheck Scenario.env1;
         DoBroadcastTx Scenario.txA; DoStop]
        (NewUntrustedNode "peer:8333") = Returns tt n ∧
    outgoingOpen n = negb (closed (outgoing n)) ∧
    mutex n = false ∧
    ∃ n',
      Stop n = Returns None n' ∧
      closed (outgoing n') = true ∧
      occurrences is_close n' = 1%nat.
Proof.
  eexists. split; [vm_compute; reflexivity|].
  eapply (Stop_from_any_state "peer:8333"
            [GotVersion 70015%N; DoCheck Scenario.env1;
             DoBroadcastTx Scenario.txA; DoStop]).
  vm_compute. reflexivity.
Defined.



(** X20, on a new node: a timeout ends the loop with the flag set, and on
    the stopped node the next turn ends the loop. *)
Lemma monitorRequestTimeouts_ends_stopping_witness :
  (∃ n',
     monitorRequestTimeouts
       [{| asleep := []; timeout := Some "timed out"%string |}]
       (NewUntrustedNode "peer:8333") = Returns false n' ∧
     stopping n' = true) ∧
  (∃ go n',
     timeouts_turn {| asleep := []; timeout := None |}
       (final (Stop (NewUntrustedNode "peer:8333"))) = Returns go n' ∧
     go = false).
Proof.
  split.
  - eexists. split; [vm_compute; reflexivity|].
    eapply (monitorRequestTimeouts_ends_stopping
              [{| asleep := []; timeout := Some "timed out"%string |}]
              (NewUntrustedNode "peer:8333")).
    vm_compute. reflexivity.
  - exists false. eexists. split; [vm_compute; reflexivity|].
    eapply (proj2 (monitorRequestTimeouts_ends_stopping []
                     (final (Stop (NewUntrustedNode "peer:8333"))))
              eq_refl {| asleep := []; timeout := None |} false).
    vm_compute. reflexivity.
Defined.

End NodeLaws.

(** * The inspector *)

Module InspectorLaws.
Import Inspector.

Lemma carriers_cons o outs :
  carriers (o :: outs) =
    if isTokenizedOpReturn (PkScript o)
    then PkScript o :: carriers outs else carriers outs.
Proof.
  unfold carriers. rewrite fmap_cons, filter_cons.
  destruct (isTokenizedOpReturn (PkScript o)); by case_decide.
Qed.

Section WithProtocol.

Variable OpReturnMessage : Type.
Variable protocol_New : list Byte.byte → option OpReturnMessage.
Variable TxHash : MsgTx → N.

(** The loop over the outputs fails as soon as one signature-carrying
    script does not start with OP_RETURN, and otherwise ends with the
    message of the last such script. *)
Lemma parse_outputs_spec outs msg :
  parse_outputs OpReturnMessage protocol_New outs msg =
    if bool_decide (Forall (fun s => at_ s 0 = OP_RETURN) (carriers outs))
    then inr (match last (carriers outs) with
              | Some s => protocol_New s
              | None => msg
              end)
    else inl (Wrap ErrInvalidProtocol "parsing op return").
Proof.
  revert msg. induction outs as [|o outs IH]; intros msg.
  - reflexivity.
  - simpl. rewrite carriers_cons.
    destruct (isTokenizedOpReturn (PkScript o)) eqn:Htok; simpl.
    + destruct (decide (at_ (PkScript o) 0 = OP_RETURN)) as [Hop|Hop].
      * rewrite (bool_decide_eq_true_2 _ Hop). simpl. rewrite IH.
        destruct (decide (Forall (fun s => at_ s 0 = OP_RETURN)
                            (carriers outs))) as [Hall|Hall].
        -- rewrite (bool_decide_eq_true_2 _ Hall).
           rewrite bool_decide_eq_true_2 by by constructor.
           rewrite last_cons. by destruct (last (carriers outs)).
        -- rewrite (bool_decide_eq_false_2 _ Hall).
           rewrite bool_decide_eq_false_2; [done|].
           intros H. apply Hall. by inversion H.
      * rewrite (bool_decide_eq_false_2 _ Hop). simpl.
        rewrite bool_decide_eq_false_2; [done|].
        intros H. apply Hop. by inversion H.
    + apply IH.
Qed.

(** X21: [NewTransactionFromWire] refuses a transaction without inputs
    first, then one without outputs, then one with an output whose script
    carries the protocol signature without starting with OP_RETURN; it
    accepts every other transaction, with the hash of the transaction and
    the message [protocol.New] makes of the last signature-carrying script,
    or the nil message when no script carries the signature. *)
Theorem NewTransactionFromWire_cases tx outs :
  NewTransactionFromWire OpReturnMessage protocol_New TxHash tx outs =
    match TxIn tx, outs with
    | [], _ => inl (Wrap ErrMissingInputs "parsing transaction")
    | _ :: _, [] => inl (Wrap ErrMissingOutputs "parsing transaction")
    | _ :: _, _ :: _ =>
        if bool_decide (Forall (fun s => at_ s 0 = OP_RETURN) (carriers outs))
        then inr {| Hash := TxHash tx; Tx := tx; Outputs := outs;
                    MsgProto := match last (carriers outs) with
                                | Some s => protocol_New s
                                | None => None
                                end |}
        else inl (Wrap ErrInvalidProtocol "parsing op return")
    end.
Proof.
  unfold NewTransactionFromWire.
  destruct (TxIn tx) as [|i ins]; [done|].
  destruct outs as [|o outs]; [done|].
  change (length (i :: ins) =? 0)%nat with false.
  change (length (o :: outs) =? 0)%nat with false.
  cbv iota. rewrite parse_outputs_spec. by case_bool_decide.
Qed.

End WithProtocol.

(** X22: [isTokenizedOpReturn] rejects every script shorter than 20 bytes,
    and on longer scripts its answer depends on the first seven bytes
    only. *)
Theorem isTokenizedOpReturn_prefix (s s' : list Byte.byte) :
  ((length s < 20)%nat → isTokenizedOpReturn s = false) ∧
  ((20 ≤ length s)%nat → (20 ≤ length s')%nat → take 7 s = take 7 s' →
   isTokenizedOpReturn s = isTokenizedOpReturn s').
Proof.
  split.
  - intros Hlen. unfold isTokenizedOpReturn.
    apply Nat.ltb_lt in Hlen. by rewrite Hlen.
  - intros Hs Hs' Heq. unfold isTokenizedOpReturn.
    assert (Hl : ∀ l : list Byte.byte, (20 ≤ length l)%nat →
              (length l <? 20)%nat = false)
      by (intros l Hl; apply Nat.ltb_ge; lia).
    rewrite !Hl by done.
    assert (Hat : ∀ l : list Byte.byte, at_ l 1 = at_ (take 7 l) 1).
    { intros l. unfold at_. destruct l as [|a [|b l]]; reflexivity. }
    assert (H2 : ∀ l : list Byte.byte,
              take 4 (drop 2 l) = take 4 (drop 2 (take 7 l))).
    { intros l. rewrite !take_drop_commute, take_take. reflexivity. }
    assert (H3 : ∀ l : list Byte.byte,
              take 4 (drop 3 l) = take 4 (drop 3 (take 7 l))).
    { intros l. rewrite !take_drop_commute, take_take. reflexivity. }
    rewrite (Hat s), (Hat s'), (H2 s), (H2 s'), (H3 s), (H3 s'), Heq.
    reflexivity.
Qed.

(** X22, on the first six bytes of a signature-carrying script, and on two
    such scripts that differ in their last byte. *)
Lemma isTokenizedOpReturn_prefix_witness :
  isTokenizedOpReturn (take 6 (Scenario.token_script Byte.x01)) = false ∧
  isTokenizedOpReturn (Scenario.token_script Byte.x01)
    = isTokenizedOpReturn (Scenario.token_script Byte.x02).
Proof.
  split.
  - apply (proj1 (isTokenizedOpReturn_prefix
                    (take 6 (Scenario.token_script Byte.x01)) [])).
    vm_compute. lia.
  - apply (proj2 (isTokenizedOpReturn_prefix
                    (Scenario.token_script Byte.x01)
                    (Scenario.token_script Byte.x02)));
      [vm_compute; lia|vm_compute; lia|reflexivity].
Defined.

End InspectorLaws.
